(** * The ordered include registry of taskfile/ast/include.go

  A shallow embedding of [Include], [Includes] and their YAML decoders,
  together with the parts of the libraries they call: the node tree of
  gopkg.in/yaml.v3, the ordered map of elliotchance/orderedmap/v2 and the
  error constructors of the package errors. *)

From stdpp Require Import gmap strings list.

Open Scope string_scope.
Open Scope list_scope.

(** ** gopkg.in/yaml.v3: the node tree *)

Module yaml.

(** [yaml.Kind]. [KindZero] is the zero value, which no parsed node has. *)
Inductive NodeKind :=
| KindZero | DocumentNode | SequenceNode | MappingNode | ScalarNode | AliasNode.

#[global] Instance NodeKind_eq_dec : EqDecision NodeKind.
Proof. solve_decision. Defined.

(** [yaml.Node], with the fields the decoders read. [Tag] holds the short
    tag the parser resolved ("!!str", "!!null", "!!map", ...). A mapping
    node lists its keys and values alternately in [Content]. *)
#[warnings="-register-all"]
Inductive Node := mkNode {
  Kind : NodeKind;
  Tag : string;
  Value : string;
  Alias : option Node;
  Content : list Node;
}.

Definition strTag : string := "!!str".
Definition nullTag : string := "!!null".
Definition boolTag : string := "!!bool".
Definition mapTag : string := "!!map".
Definition seqTag : string := "!!seq".

(** The key/value pairs of a mapping node's [Content], in source order. *)
Fixpoint pairs (content : list Node) : list (Node * Node) :=
  match content with
  | k :: v :: rest => (k, v) :: pairs rest
  | _ => []
  end.

(** The text of the keys of a mapping node, in source order. *)
Definition keys (n : Node) : list string := (Value ∘ fst) <$> pairs (Content n).

(** Every key is a scalar tagged as a string: no merge key, no alias and no
    collection is used as a key. *)
Definition plain_keys (n : Node) : Prop :=
  Forall (λ kv, Kind (fst kv) = ScalarNode ∧ Tag (fst kv) = strTag) (pairs (Content n)).

(** A string, a mapping or a sequence as the parser tags it: what the decoder
    hands to an [UnmarshalYAML] method as it is. *)
Definition ordinary (n : Node) : Prop :=
  (Kind n = ScalarNode ∧ Tag n = strTag) ∨
  (Kind n = MappingNode ∧ Tag n = mapTag) ∨
  (Kind n = SequenceNode ∧ Tag n = seqTag).

(** The mapping has an entry [name: v]. *)
Definition entry (name : string) (n : Node) (v : Node) : Prop :=
  ∃ k, (k, v) ∈ pairs (Content n) ∧ Value k = name.

(** Builders for the nodes the parser emits. *)
Definition str (s : string) : Node := mkNode ScalarNode strTag s None [].
Definition null : Node := mkNode ScalarNode nullTag "~" None [].
Definition boolean (s : string) : Node := mkNode ScalarNode boolTag s None [].
Definition seq (items : list Node) : Node := mkNode SequenceNode seqTag "" None items.
Fixpoint flatten (kvs : list (Node * Node)) : list Node :=
  match kvs with
  | [] => []
  | (k, v) :: rest => k :: v :: flatten rest
  end.
Definition map (kvs : list (Node * Node)) : Node :=
  mkNode MappingNode mapTag "" None (flatten kvs).

End yaml.

Import yaml (NodeKind, Node).

(** ** Package errors *)

Module errors.

(** Modelled from the spec: the error values of package errors
    (errors.TaskfileDecodeError and its constructors are not in include.go).
    The spec gives two kinds, TypeMismatch(expectedConstruct, node) and
    DecodeError(cause, node); [Foreign] stands for an error raised by the
    yaml library itself. *)
#[warnings="-register-all"]
Inductive error :=
| Foreign (msg : string)
| DecodeError (cause : option error) (node : Node)
| TypeMismatch (expectedConstruct : string) (node : Node).

(** Modelled from the spec: errors.NewTaskfileDecodeError(err, node) wraps
    the cause [err] (nil when there is none) and the offending node. *)
Definition NewTaskfileDecodeError (err : option error) (node : Node) : error :=
  DecodeError err node.

(** Modelled from the spec: err.WithTypeMessage(t) turns the error into the
    type mismatch that names the expected construct [t]. *)
Definition WithTypeMessage (t : string) (e : error) : error :=
  match e with
  | Foreign m => Foreign m
  | DecodeError _ n => TypeMismatch t n
  | TypeMismatch _ n => TypeMismatch t n
  end.

End errors.

Import errors (error, Foreign, DecodeError, TypeMismatch, NewTaskfileDecodeError, WithTypeMessage).

(** A Go call that returns [(T, error)] or fills [*T] and returns [error]. *)
Abbreviation result T := (error + T)%type.

(** ** The records of include.go *)

(** [ast.Include]. [VarsT] is the type [ast.Vars] of taskfile/ast/vars.go; a
    [*Vars] is an [option], [None] for nil. A nil slice is the empty list. *)
Record Include (VarsT : Type) := mkInclude {
  Namespace : string;
  Taskfile : string;
  Dir : string;
  Optional : bool;
  Internal : bool;
  Aliases : list string;
  AdvancedImport : bool;
  Vars : option VarsT;
  Flatten : bool;
}.

Arguments mkInclude {VarsT}.
Arguments Namespace {VarsT}.
Arguments Taskfile {VarsT}.
Arguments Dir {VarsT}.
Arguments Optional {VarsT}.
Arguments Internal {VarsT}.
Arguments Aliases {VarsT}.
Arguments AdvancedImport {VarsT}.
Arguments Vars {VarsT}.
Arguments Flatten {VarsT}.

(** The zero value [Include{}]. *)
Definition zeroInclude {VarsT} : Include VarsT :=
  mkInclude "" "" "" false false [] false None false.

(** The anonymous struct [includedTaskfile] that the mapping form of
    [Include.UnmarshalYAML] decodes into. *)
Module includedTaskfile.

Record t (VarsT : Type) := mk {
  Taskfile : string;
  Dir : string;
  Optional : bool;
  Internal : bool;
  Flatten : bool;
  Aliases : list string;
  Vars : option VarsT;
}.

Arguments mk {VarsT}.
Arguments Taskfile {VarsT}.
Arguments Dir {VarsT}.
Arguments Optional {VarsT}.
Arguments Internal {VarsT}.
Arguments Flatten {VarsT}.
Arguments Aliases {VarsT}.
Arguments Vars {VarsT}.

(** What [var includedTaskfile struct{...}] declares. *)
Definition zero {VarsT} : t VarsT := mk "" "" false false false [] None.

End includedTaskfile.

(** ** gopkg.in/yaml.v3: decoding a node *)

(** What decoding a mapping into [includedTaskfile] leaves in the fields whose
    key the mapping does not have: the value the fresh struct had. The key of
    a field is its name in lower case. *)
Definition absent_spec {VarsT} (n : Node) (f : includedTaskfile.t VarsT) : Prop :=
  ("taskfile" ∉ yaml.keys n → includedTaskfile.Taskfile f = "") ∧
  ("dir" ∉ yaml.keys n → includedTaskfile.Dir f = "") ∧
  ("optional" ∉ yaml.keys n → includedTaskfile.Optional f = false) ∧
  ("internal" ∉ yaml.keys n → includedTaskfile.Internal f = false) ∧
  ("flatten" ∉ yaml.keys n → includedTaskfile.Flatten f = false) ∧
  ("aliases" ∉ yaml.keys n → includedTaskfile.Aliases f = []) ∧
  ("vars" ∉ yaml.keys n → includedTaskfile.Vars f = None).

(** What it puts in the fields whose key the mapping has: the entry's value,
    decoded at the type of the field. *)
Definition present_spec {VarsT}
    (decodeString : Node → result string) (decodeBool : Node → result bool)
    (decodeStrings : Node → result (list string))
    (decodeVars : Node → result (option VarsT))
    (n : Node) (f : includedTaskfile.t VarsT) : Prop :=
  (∀ v, yaml.entry "taskfile" n v → decodeString v = inr (includedTaskfile.Taskfile f)) ∧
  (∀ v, yaml.entry "dir" n v → decodeString v = inr (includedTaskfile.Dir f)) ∧
  (∀ v, yaml.entry "optional" n v → decodeBool v = inr (includedTaskfile.Optional f)) ∧
  (∀ v, yaml.entry "internal" n v → decodeBool v = inr (includedTaskfile.Internal f)) ∧
  (∀ v, yaml.entry "flatten" n v → decodeBool v = inr (includedTaskfile.Flatten f)) ∧
  (∀ v, yaml.entry "aliases" n v → decodeStrings v = inr (includedTaskfile.Aliases f)) ∧
  (∀ v, yaml.entry "vars" n v → decodeVars v = inr (includedTaskfile.Vars f)).

(** [Node.Decode], at the types include.go decodes into. The library
    is not part of the program: its decoder is an interface, with the facts
    about it that the decoders of include.go rely on.
    - [decodeString n] is [n.Decode(&str)] for a fresh [str],
      [decodeBool], [decodeStrings] and [decodeVars] the same at [bool],
      [[]string] and [*Vars];
    - [decodeStruct n] is [n.Decode(&includedTaskfile)] for the fresh struct;
    - [decodeUnmarshaler u v n] is [n.Decode(&v)] for a [v] whose type has the
      method [UnmarshalYAML], here [u]: the library hands the node to [u],
      unless the node is null, an alias or a document. *)
Class Decoder (VarsT : Type) := {
  decodeString : Node → result string;
  decodeBool : Node → result bool;
  decodeStrings : Node → result (list string);
  decodeVars : Node → result (option VarsT);
  decodeStruct : Node → result (includedTaskfile.t VarsT);
  decodeUnmarshaler : ∀ {T : Type}, (T → Node → result T) → T → Node → result T;
  decodeString_str : ∀ n,
    yaml.Kind n = yaml.ScalarNode → yaml.Tag n = yaml.strTag →
    decodeString n = inr (yaml.Value n);
  decodeUnmarshaler_call : ∀ {T : Type} (u : T → Node → result T) v n,
    yaml.ordinary n → decodeUnmarshaler u v n = u v n;
  decodeStruct_absent : ∀ n f,
    yaml.Kind n = yaml.MappingNode → yaml.plain_keys n →
    decodeStruct n = inr f → absent_spec n f;
  decodeStruct_present : ∀ n f,
    yaml.Kind n = yaml.MappingNode → yaml.plain_keys n →
    decodeStruct n = inr f →
    present_spec decodeString decodeBool decodeStrings decodeVars n f;
}.

(** ** Include *)

Section Include.

Context {VarsT : Type} `{!Decoder VarsT}.

(** [Vars.DeepCopy] of taskfile/ast/vars.go, nil for nil. *)
Variable Vars_DeepCopy : option VarsT → option VarsT.

(** [func (include *Include) UnmarshalYAML(node *yaml.Node) error]. The
    result is the error, or the receiver as the call leaves it; no path that
    returns an error has written to the receiver. *)
Definition Include_UnmarshalYAML (include : Include VarsT) (node : Node)
    : result (Include VarsT) :=
  match yaml.Kind node with
  | yaml.ScalarNode =>
      match decodeString node with
      | inl err => inl (NewTaskfileDecodeError (Some err) node)
      | inr str =>
          inr (mkInclude (Namespace include) str (Dir include) (Optional include)
                 (Internal include) (Aliases include) (AdvancedImport include)
                 (Vars include) (Flatten include))
      end
  | yaml.MappingNode =>
      match decodeStruct node with
      | inl err => inl (NewTaskfileDecodeError (Some err) node)
      | inr includedTaskfile =>
          inr (mkInclude (Namespace include)
                 (includedTaskfile.Taskfile includedTaskfile)
                 (includedTaskfile.Dir includedTaskfile)
                 (includedTaskfile.Optional includedTaskfile)
                 (includedTaskfile.Internal includedTaskfile)
                 (includedTaskfile.Aliases includedTaskfile)
                 true
                 (includedTaskfile.Vars includedTaskfile)
                 (includedTaskfile.Flatten includedTaskfile))
      end
  | _ => inl (WithTypeMessage "include" (NewTaskfileDecodeError None node))
  end.

(** [func (include *Include) DeepCopy() *Include]. The composite literal
    names no [Aliases], so the copy has the nil slice there. *)
Definition Include_DeepCopy (include : option (Include VarsT)) : option (Include VarsT) :=
  match include with
  | None => None
  | Some include =>
      Some {| Namespace := Namespace include;
              Taskfile := Taskfile include;
              Dir := Dir include;
              Optional := Optional include;
              Internal := Internal include;
              Aliases := [];
              AdvancedImport := AdvancedImport include;
              Vars := Vars_DeepCopy (Vars include);
              Flatten := Flatten include |}
  end.

End Include.

(** ** elliotchance/orderedmap/v2 *)

Module orderedmap.

(** [orderedmap.OrderedMap[string, V]]: the index [kv] from keys to values
    and the list [ll] of the keys in the order of their insertion. (The
    library keeps each value in the list element of its key and indexes the
    elements by key; the value is stored here with the index.) *)
Record OrderedMap (V : Type) := mk {
  kv : gmap string V;
  ll : list string;
}.

Arguments mk {V}.
Arguments kv {V}.
Arguments ll {V}.

(** [orderedmap.NewOrderedMap] *)
Definition NewOrderedMap {V} : OrderedMap V := mk ∅ [].

(** [func (m *OrderedMap[K, V]) Get(key K) (value V, ok bool)]: the zero
    value of [V] and false for a key that is not there. *)
Definition OrderedMap_Get {V} `{Inhabited V} (m : OrderedMap V) (key : string) : V * bool :=
  match kv m !! key with
  | Some v => (v, true)
  | None => (inhabitant, false)
  end.

(** [func (m *OrderedMap[K, V]) Set(key K, value V) bool]: an existing key
    gets the new value where it stands, a new key goes to the back. *)
Definition OrderedMap_Set {V} (m : OrderedMap V) (key : string) (value : V)
    : OrderedMap V * bool :=
  match kv m !! key with
  | Some _ => (mk (<[key := value]> (kv m)) (ll m), false)
  | None => (mk (<[key := value]> (kv m)) (ll m ++ [key]), true)
  end.

(** [func (m *OrderedMap[K, V]) Len() int] is [len(m.kv)]. *)
Definition OrderedMap_Len {V} (m : OrderedMap V) : Z := Z.of_nat (size (kv m)).

(** [func (m *OrderedMap[K, V]) Iterator() iter.Seq2[K, V]]: the pairs a
    full run of the iterator yields, front to back. *)
Definition OrderedMap_Iterator {V} (m : OrderedMap V) : list (string * V) :=
  omap (λ k, (k,.) <$> kv m !! k) (ll m).

(** The maps the library builds: the list has every indexed key once. *)
Definition wf {V} (m : OrderedMap V) : Prop :=
  NoDup (ll m) ∧ ∀ k, k ∈ ll m ↔ is_Some (kv m !! k).

End orderedmap.

Import orderedmap (OrderedMap, NewOrderedMap, OrderedMap_Get, OrderedMap_Set,
  OrderedMap_Len, OrderedMap_Iterator).

(** ** Includes *)

(** [ast.Includes]: the pointer [om] is nil ([None]) in the zero value. No
    function of include.go copies a struct or hands out its map, so a map is
    reached through the field of one struct only and is kept in that struct;
    two structs that share one map are not represented. *)
Record Includes (VarsT : Type) := mkIncludes {
  om : option (OrderedMap (option (Include VarsT)));
}.

Arguments mkIncludes {VarsT}.
Arguments om {VarsT}.

(** [ast.IncludeElement], an [orderedmap.Element[string, *Include]]. *)
Record IncludeElement (VarsT : Type) := mkIncludeElement {
  Key : string;
  Value : option (Include VarsT);
}.

Arguments mkIncludeElement {VarsT}.
Arguments Key {VarsT}.
Arguments Value {VarsT}.

(** A [*Includes]: nil, or the address of a struct in the store. *)
Definition ptr := option nat.

(** The store of the [Includes] structs allocated so far, by address. *)
Abbreviation heap VarsT := (list (Includes VarsT)).

(** How a call ends: it returns [a] and leaves the store [h], or panics. *)
Inductive outcome (VarsT A : Type) :=
| Ret (a : A) (h : heap VarsT)
| Panic.

Arguments Ret {VarsT A}.
Arguments Panic {VarsT A}.

(** Computations on the store. *)
Definition M (VarsT A : Type) : Type := heap VarsT → outcome VarsT A.

#[global] Instance M_ret {VarsT} : MRet (M VarsT) := λ A a h, Ret a h.
#[global] Instance M_bind {VarsT} : MBind (M VarsT) := λ A B f m h,
  match m h with
  | Ret a h' => f a h'
  | Panic => Panic
  end.

Section Includes.

Context {VarsT : Type} `{!Decoder VarsT}.

Definition panic {A} : M VarsT A := λ _, Panic.

(** [&Includes{...}]: a new struct at the next free address. *)
Definition alloc (s : Includes VarsT) : M VarsT nat := λ h, Ret (length h) (h ++ [s]).

(** Reading and writing the struct at an address. *)
Definition load (l : nat) : M VarsT (Includes VarsT) := λ h,
  match h !! l with
  | Some s => Ret s h
  | None => Panic
  end.

Definition store (l : nat) (s : Includes VarsT) : M VarsT unit := λ h,
  match h !! l with
  | Some _ => Ret () (<[l := s]> h)
  | None => Panic
  end.

(** [func (includes *Includes) Len() int] *)
Definition Includes_Len (includes : ptr) : M VarsT Z :=
  match includes with
  | None => mret 0%Z
  | Some l =>
      s ← load l;
      match om s with
      | None => mret 0%Z
      | Some m => mret (OrderedMap_Len m)
      end
  end.

(** [func (includes *Includes) Get(key string) (value *Include, ok bool)] *)
Definition Includes_Get (includes : ptr) (key : string)
    : M VarsT (option (Include VarsT) * bool) :=
  match includes with
  | None => mret (Some zeroInclude, false)
  | Some l =>
      s ← load l;
      match om s with
      | None => mret (Some zeroInclude, false)
      | Some m => mret (OrderedMap_Get m key)
      end
  end.

(** [func (includes *Includes) Set(key string, value *Include) bool]. For a
    nil receiver the new struct is bound to the method's own variable
    [includes]; the caller's pointer is not written. [NewIncludes()] without
    elements is the allocation alone. *)
Definition Includes_Set (includes : ptr) (key : string) (value : option (Include VarsT))
    : M VarsT bool :=
  includes ← match includes with
             | None => alloc (mkIncludes (Some NewOrderedMap))
             | Some l => mret l
             end;
  s ← load includes;
  let m := match om s with
           | None => NewOrderedMap
           | Some m => m
           end in
  let '(m, isNew) := OrderedMap_Set m key value in
  _ ← store includes (mkIncludes (Some m));
  mret isNew.

(** The loop [for _, el := range els { includes.Set(el.Key, el.Value) }]. An
    element is a pointer: reading [el.Key] of a nil one panics. *)
Fixpoint setElements (includes : ptr) (els : list (option (IncludeElement VarsT)))
    : M VarsT unit :=
  match els with
  | [] => mret ()
  | None :: _ => panic
  | Some el :: els =>
      _ ← Includes_Set includes (Key el) (Value el);
      setElements includes els
  end.

(** [func NewIncludes(els ...*IncludeElement) *Includes] *)
Definition NewIncludes (els : list (option (IncludeElement VarsT))) : M VarsT ptr :=
  includes ← alloc (mkIncludes (Some NewOrderedMap));
  _ ← setElements (Some includes) els;
  mret (Some includes).

(** [func (includes *Includes) All() iter.Seq2[string, *Include]]: the pairs
    a full run of the iterator yields. *)
Definition Includes_All (includes : ptr) : M VarsT (list (string * option (Include VarsT))) :=
  match includes with
  | None => mret []
  | Some l =>
      s ← load l;
      match om s with
      | None => mret []
      | Some m => mret (OrderedMap_Iterator m)
      end
  end.

(** [func (includes *Includes) Keys(sorter sort.Sorter) iter.Seq[string]] *)
Definition Includes_Keys {Sorter} (includes : ptr) (sorter : Sorter) : M VarsT (list string) :=
  all ← Includes_All includes;
  mret (fst <$> all).

(** [func (includes *Includes) Values(sorter sort.Sorter) iter.Seq[*Include]] *)
Definition Includes_Values {Sorter} (includes : ptr) (sorter : Sorter)
    : M VarsT (list (option (Include VarsT))) :=
  all ← Includes_All includes;
  mret (snd <$> all).

(** [v.Namespace = keyNode.Value] *)
Definition setNamespace (v : Include VarsT) (ns : string) : Include VarsT :=
  mkInclude ns (Taskfile v) (Dir v) (Optional v) (Internal v) (Aliases v)
    (AdvancedImport v) (Vars v) (Flatten v).

(** [var v Include] and [valueNode.Decode(&v)]: the value node decoded into
    a fresh record. *)
Definition decodeValue (valueNode : Node) : result (Include VarsT) :=
  decodeUnmarshaler Include_UnmarshalYAML zeroInclude valueNode.

(** The loop of [Includes.UnmarshalYAML] over [node.Content], two nodes at a
    time, from the nodes still to visit. [node.Content[i+1]] panics when the
    last key has no value. *)
Fixpoint decodeContent (includes : ptr) (node : Node) (content : list Node)
    : M VarsT (option error) :=
  match content with
  | [] => mret None
  | [keyNode] => panic
  | keyNode :: valueNode :: content =>
      match decodeValue valueNode with
      | inl err => mret (Some (NewTaskfileDecodeError (Some err) node))
      | inr v =>
          let v := setNamespace v (yaml.Value keyNode) in
          _ ← Includes_Set includes (yaml.Value keyNode) (Some v);
          decodeContent includes node content
      end
  end.

(** [func (includes *Includes) UnmarshalYAML(node *yaml.Node) error] *)
Definition Includes_UnmarshalYAML (includes : ptr) (node : Node) : M VarsT (option error) :=
  match yaml.Kind node with
  | yaml.MappingNode => decodeContent includes node (yaml.Content node)
  | _ => mret (Some (WithTypeMessage "includes" (NewTaskfileDecodeError None node)))
  end.

End Includes.


(** ** Vocabulary of the specification *)

(** The call returns [a] (in some store). *)
Definition returns {VarsT A} (o : outcome VarsT A) (a : A) : Prop :=
  ∃ h, o = Ret a h.

(** The map a struct stands for: none yet when [om] is nil. *)
Definition view {VarsT} (s : Includes VarsT) : OrderedMap (option (Include VarsT)) :=
  match om s with
  | Some m => m
  | None => NewOrderedMap
  end.

(** [l] is the address of a registry in [h]: a struct whose map, if it has
    one, is one the library built. *)
Definition registry {VarsT} (l : nat) (h : heap VarsT) : Prop :=
  ∃ s, h !! l = Some s ∧ orderedmap.wf (view s).

(** An uninitialized registry: the nil pointer, or a struct without a map. *)
Definition uninitialized {VarsT} (includes : ptr) (h : heap VarsT) : Prop :=
  includes = None ∨ ∃ l, includes = Some l ∧ h !! l = Some (mkIncludes None).

(** An empty initialized registry, as [NewIncludes()] makes it. *)
Definition empty_initialized {VarsT} (includes : ptr) (h : heap VarsT) : Prop :=
  ∃ l, includes = Some l ∧ h !! l = Some (mkIncludes (Some NewOrderedMap)).

(** The keys of a sequence in the order of their first occurrence. *)
Fixpoint firsts (ks : list string) : list string :=
  match ks with
  | [] => []
  | k :: ks => k :: filter (λ k', k' ≠ k) (firsts ks)
  end.

(** A sequence of [Set] calls on one registry, with what each returned. *)
Fixpoint setCalls {VarsT} (includes : ptr) (calls : list (string * option (Include VarsT)))
    : M VarsT (list bool) :=
  match calls with
  | [] => mret []
  | (key, value) :: calls =>
      isNew ← Includes_Set includes key value;
      rest ← setCalls includes calls;
      mret (isNew :: rest)
  end.

(** The mapping [content] is a list of entries, and the value of each decodes
    into the record next to its key in [calls], stamped with the key. *)
Definition decodes_to {VarsT} `{!Decoder VarsT} (content : list Node)
    (calls : list (string * option (Include VarsT))) : Prop :=
  yaml.flatten (yaml.pairs content) = content ∧
  Forall2 (λ kv call, ∃ v, decodeValue (snd kv) = inr v ∧
             call = (yaml.Value (fst kv), Some (setNamespace v (yaml.Value (fst kv)))))
    (yaml.pairs content) calls.

(** The same sequence of [Set] calls on the ordered map itself. *)
Fixpoint mapSets {V} (m : OrderedMap V) (calls : list (string * V)) : OrderedMap V * list bool :=
  match calls with
  | [] => (m, [])
  | (key, value) :: calls =>
      let '(m, isNew) := OrderedMap_Set m key value in
      let '(m, rest) := mapSets m calls in
      (m, isNew :: rest)
  end.

(** What a sequence of [Set] calls makes of the map [m0]: the keys stand in
    the order of their first insertion, every key has the value written to it
    last, the keys not written keep theirs, and a call returned true exactly
    when its key had not been seen. *)
Definition sets_post {V} (m0 m : OrderedMap V) (calls : list (string * V)) (bs : list bool)
    : Prop :=
  orderedmap.wf m ∧
  orderedmap.ll m = firsts (orderedmap.ll m0 ++ (fst <$> calls)) ∧
  (∀ c1 k v c2, calls = c1 ++ (k, v) :: c2 → k ∉ fst <$> c2 →
     orderedmap.kv m !! k = Some v) ∧
  (∀ k, k ∉ fst <$> calls → orderedmap.kv m !! k = orderedmap.kv m0 !! k) ∧
  length bs = length calls ∧
  (∀ c1 k v c2, calls = c1 ++ (k, v) :: c2 →
     bs !! length c1 = Some (bool_decide (k ∉ orderedmap.ll m0 ++ (fst <$> c1)))).

(** The fields of a record that the mapping form decodes, as the struct
    [includedTaskfile] has them. *)
Definition fieldsOf {VarsT} (r : Include VarsT) : includedTaskfile.t VarsT :=
  includedTaskfile.mk (Taskfile r) (Dir r) (Optional r) (Internal r) (Flatten r)
    (Aliases r) (Vars r).

(** The record of the shorthand entry [key: path]. *)
Definition shorthand {VarsT} (kv : Node * Node) : Include VarsT :=
  mkInclude (yaml.Value (fst kv)) (yaml.Value (snd kv)) "" false false [] false None false.
(** ** A decoder to run the program on

    The behaviour of yaml.v3 on the trees the parser builds from string,
    boolean and null scalars, sequences, aliases and mappings with distinct
    string keys; it refuses every other tree. [ast.Vars] is a list of names
    with their values. *)

Module reference.

Definition VarsT : Type := list (string * string).

Definition mismatch {T} : result T := inl (Foreign "cannot unmarshal").

Definition is_null (n : Node) : bool := bool_decide (yaml.Tag n = yaml.nullTag).

(** A null node leaves the fresh value as it is; any other scalar gives its
    text to a string. *)
Definition refString (n : Node) : result string :=
  match yaml.Kind n with
  | yaml.ScalarNode => if is_null n then inr "" else inr (yaml.Value n)
  | _ => mismatch
  end.

Definition refBool (n : Node) : result bool :=
  match yaml.Kind n with
  | yaml.ScalarNode =>
      if is_null n then inr false
      else if bool_decide (yaml.Tag n = yaml.boolTag ∧ yaml.Value n = "true") then inr true
      else if bool_decide (yaml.Tag n = yaml.boolTag ∧ yaml.Value n = "false") then inr false
      else mismatch
  | _ => mismatch
  end.

Fixpoint each {A B} (f : A → result B) (l : list A) : result (list B) :=
  match l with
  | [] => inr []
  | a :: l =>
      match f a, each f l with
      | inr b, inr bs => inr (b :: bs)
      | inl e, _ => inl e
      | _, inl e => inl e
      end
  end.

Definition refStrings (n : Node) : result (list string) :=
  match yaml.Kind n with
  | yaml.SequenceNode => each refString (yaml.Content n)
  | yaml.ScalarNode => if is_null n then inr [] else mismatch
  | _ => mismatch
  end.

Definition refVar (kv : Node * Node) : result (string * string) :=
  match refString (snd kv) with
  | inr s => inr (yaml.Value (fst kv), s)
  | inl e => inl e
  end.

Definition refVars (n : Node) : result (option VarsT) :=
  match yaml.Kind n with
  | yaml.MappingNode =>
      match each refVar (yaml.pairs (yaml.Content n)) with
      | inr vs => inr (Some vs)
      | inl e => inl e
      end
  | yaml.ScalarNode => if is_null n then inr None else mismatch
  | _ => mismatch
  end.

(** The value of the first entry with the key [name]. *)
Fixpoint lookup_entry (name : string) (ps : list (Node * Node)) : option Node :=
  match ps with
  | [] => None
  | (k, v) :: ps => if bool_decide (yaml.Value k = name) then Some v else lookup_entry name ps
  end.

(** A field of the struct: the entry of its key, decoded, or the zero value. *)
Definition field {T} (decode : Node → result T) (zero : T) (name : string) (n : Node)
    : result T :=
  match lookup_entry name (yaml.pairs (yaml.Content n)) with
  | Some v => decode v
  | None => inr zero
  end.

Definition refStruct (n : Node) : result (includedTaskfile.t VarsT) :=
  if bool_decide (yaml.Kind n = yaml.MappingNode ∧ yaml.plain_keys n ∧ NoDup (yaml.keys n))
  then
    match field refString "" "taskfile" n, field refString "" "dir" n,
          field refBool false "optional" n, field refBool false "internal" n,
          field refBool false "flatten" n, field refStrings [] "aliases" n,
          field refVars None "vars" n with
    | inr taskfile, inr dir, inr optional, inr internal, inr flatten, inr aliases, inr vars =>
        inr (includedTaskfile.mk taskfile dir optional internal flatten aliases vars)
    | _, _, _, _, _, _, _ => mismatch
    end
  else mismatch.

(** Decoding into a value that has [UnmarshalYAML]: an alias stands for its
    target, a document for its root, a null node leaves the value as it is,
    and any other node goes to the method. *)
Fixpoint refUnmarshaler {T : Type} (u : T → Node → result T) (v : T) (n : Node) : result T :=
  match n with
  | yaml.mkNode yaml.AliasNode _ _ (Some target) _ => refUnmarshaler u v target
  | yaml.mkNode yaml.AliasNode _ _ None _ => mismatch
  | yaml.mkNode yaml.DocumentNode _ _ _ [root] => refUnmarshaler u v root
  | yaml.mkNode yaml.DocumentNode _ _ _ _ => inr v
  | _ => if is_null n then inr v else u v n
  end.

(** Modelled from the spec: [Vars.DeepCopy] of taskfile/ast/vars.go, a
    value-independent clone, nil for nil. A list is a value: the clone of a
    list is the list. *)
Definition DeepCopy (vars : option VarsT) : option VarsT :=
  match vars with
  | None => None
  | Some vs => Some vs
  end.

End reference.

(** ** Inputs to run the program on *)

Module examples.
Import reference.

(** A record that names a taskfile and nothing else, under a namespace. *)
Definition taskfile (ns t : string) : Include VarsT :=
  mkInclude ns t "" false false [] false None false.

(** The record of the include [s], which has the alias ["s"]. *)
Definition aliased : Include VarsT :=
  mkInclude "s" "./sub/Taskfile.yml" "./sub" true false ["s"] true None false.

(** The store with one struct, the zero value [Includes{}], at address 0,
    and the store with that struct and the one [NewIncludes()] makes. *)
Definition fresh : heap VarsT := [mkIncludes None].
Definition both : heap VarsT := [mkIncludes None; mkIncludes (Some NewOrderedMap)].

(** [{taskfile: "./sub/Taskfile.yml", dir: "./sub", optional: true, aliases: ["s"]}] *)
Definition sub : Node :=
  yaml.map [(yaml.str "taskfile", yaml.str "./sub/Taskfile.yml");
            (yaml.str "dir", yaml.str "./sub");
            (yaml.str "optional", yaml.boolean "true");
            (yaml.str "aliases", yaml.seq [yaml.str "s"])].

(** The record [sub] decodes into. *)
Definition sub_record : Include VarsT :=
  mkInclude "" "./sub/Taskfile.yml" "./sub" true false ["s"] true None false.

(** [{dir: "./sub"}] *)
Definition no_taskfile : Node := yaml.map [(yaml.str "dir", yaml.str "./sub")].

(** [{a: "./a.yml", b: {taskfile: "./b.yml", internal: true}}] *)
Definition two : Node :=
  yaml.map [(yaml.str "a", yaml.str "./a.yml");
            (yaml.str "b", yaml.map [(yaml.str "taskfile", yaml.str "./b.yml");
                                     (yaml.str "internal", yaml.boolean "true")])].

(** The [Set] calls that decoding [two] makes. *)
Definition two_calls : list (string * option (Include VarsT)) :=
  [("a", Some (taskfile "a" "./a.yml"));
   ("b", Some (mkInclude "b" "./b.yml" "" false true [] true None false))].

(** [{a: "./x.yml", a: "./y.yml"}] *)
Definition repeated : Node :=
  yaml.map [(yaml.str "a", yaml.str "./x.yml"); (yaml.str "a", yaml.str "./y.yml")].

(** [{a: "./a.yml", b: [], c: "./c.yml"}]: the second value is a sequence. *)
Definition broken : Node :=
  yaml.map [(yaml.str "a", yaml.str "./a.yml"); (yaml.str "b", yaml.seq []);
            (yaml.str "c", yaml.str "./c.yml")].

(** [Set(a, 1); Set(b, 2); Set(a, 3)] *)
Definition three_sets : list (string * option (Include VarsT)) :=
  [("a", Some (taskfile "a" "1")); ("b", Some (taskfile "b" "2"));
   ("a", Some (taskfile "a" "3"))].

(** [{a: "./a.yml", b: "./b.yml", a: "./c.yml"}], as pairs. *)
Definition shorthands : list (Node * Node) :=
  [(yaml.str "a", yaml.str "./a.yml"); (yaml.str "b", yaml.str "./b.yml");
   (yaml.str "a", yaml.str "./c.yml")].

(** The store [fresh] after [three_sets]: a registry with two entries. *)
Definition populated : heap VarsT :=
  match setCalls (Some 0) three_sets fresh with
  | Ret _ h => h
  | Panic => fresh
  end.

End examples.

(** ** The reference decoder satisfies the interface *)

Module reference_laws.
Import reference.

Lemma refString_str (n : Node) :
  yaml.Kind n = yaml.ScalarNode → yaml.Tag n = yaml.strTag → refString n = inr (yaml.Value n).
Proof.
  intros Hk Ht. unfold refString, is_null. rewrite Hk, Ht. reflexivity.
Qed.

Lemma refUnmarshaler_call {T : Type} (u : T → Node → result T) (v : T) (n : Node) :
  yaml.ordinary n → refUnmarshaler u v n = u v n.
Proof.
  destruct n as [k tg val al c]. unfold yaml.ordinary. simpl.
  intros [[-> ->]|[[-> ->]|[-> ->]]]; reflexivity.
Qed.

Lemma lookup_entry_None (name : string) (ps : list (Node * Node)) :
  name ∉ (yaml.Value ∘ fst) <$> ps → lookup_entry name ps = None.
Proof.
  induction ps as [|[k v] ps IH]; simpl; [done|].
  intros Hn. apply not_elem_of_cons in Hn as [Hne Hn].
  rewrite bool_decide_eq_false_2 by congruence. auto.
Qed.

Lemma lookup_entry_Some (name : string) (ps : list (Node * Node)) (k v : Node) :
  NoDup ((yaml.Value ∘ fst) <$> ps) → (k, v) ∈ ps → yaml.Value k = name →
  lookup_entry name ps = Some v.
Proof.
  induction ps as [|[k' v'] ps IH]; simpl; intros Hnd Hin Hk.
  - by apply elem_of_nil in Hin.
  - apply NoDup_cons in Hnd as [Hfresh Hnd].
    apply elem_of_cons in Hin as [Heq|Hin].
    + injection Heq as <- <-. by rewrite bool_decide_eq_true_2.
    + rewrite bool_decide_eq_false_2; [by apply IH|].
      intros Heq. apply Hfresh. rewrite Heq, <- Hk.
      apply (list_elem_of_fmap_2 (yaml.Value ∘ fst) ps (k, v)), Hin.
Qed.

Lemma field_absent {T} (decode : Node → result T) (zero : T) (name : string) (n : Node) (x : T) :
  name ∉ yaml.keys n → field decode zero name n = inr x → x = zero.
Proof.
  intros Hn. unfold field. rewrite lookup_entry_None by exact Hn. congruence.
Qed.

Lemma field_present {T} (decode : Node → result T) (zero : T) (name : string) (n v : Node) (x : T) :
  NoDup (yaml.keys n) → yaml.entry name n v → field decode zero name n = inr x →
  decode v = inr x.
Proof.
  intros Hnd (k & Hin & Hk). unfold field.
  by rewrite (lookup_entry_Some name _ k v Hnd Hin Hk).
Qed.

(** A successful [refStruct] is built from its seven fields. *)
Lemma refStruct_inv (n : Node) (f : includedTaskfile.t VarsT) :
  refStruct n = inr f →
  NoDup (yaml.keys n) ∧
  field refString "" "taskfile" n = inr (includedTaskfile.Taskfile f) ∧
  field refString "" "dir" n = inr (includedTaskfile.Dir f) ∧
  field refBool false "optional" n = inr (includedTaskfile.Optional f) ∧
  field refBool false "internal" n = inr (includedTaskfile.Internal f) ∧
  field refBool false "flatten" n = inr (includedTaskfile.Flatten f) ∧
  field refStrings [] "aliases" n = inr (includedTaskfile.Aliases f) ∧
  field refVars None "vars" n = inr (includedTaskfile.Vars f).
Proof.
  unfold refStruct. case_bool_decide as Hc; [|discriminate].
  destruct Hc as (_ & _ & Hnd).
  destruct (field refString "" "taskfile" n); [discriminate|].
  destruct (field refString "" "dir" n); [discriminate|].
  destruct (field refBool false "optional" n); [discriminate|].
  destruct (field refBool false "internal" n); [discriminate|].
  destruct (field refBool false "flatten" n); [discriminate|].
  destruct (field refStrings [] "aliases" n); [discriminate|].
  destruct (field refVars None "vars" n); [discriminate|].
  intros [= <-]. simpl. auto 10.
Qed.

Lemma refStruct_absent (n : Node) (f : includedTaskfile.t VarsT) :
  yaml.Kind n = yaml.MappingNode → yaml.plain_keys n →
  refStruct n = inr f → absent_spec n f.
Proof.
  intros _ _ Hf. apply refStruct_inv in Hf as (_ & H1 & H2 & H3 & H4 & H5 & H6 & H7).
  repeat split; intros Hn; eapply field_absent; eauto.
Qed.

Lemma refStruct_present (n : Node) (f : includedTaskfile.t VarsT) :
  yaml.Kind n = yaml.MappingNode → yaml.plain_keys n →
  refStruct n = inr f → present_spec refString refBool refStrings refVars n f.
Proof.
  intros _ _ Hf. apply refStruct_inv in Hf as (Hnd & H1 & H2 & H3 & H4 & H5 & H6 & H7).
  repeat split; intros v Hv; eapply field_present; eauto.
Qed.

End reference_laws.

#[global] Instance refDecoder : Decoder reference.VarsT := {|
  decodeString := reference.refString;
  decodeBool := reference.refBool;
  decodeStrings := reference.refStrings;
  decodeVars := reference.refVars;
  decodeStruct := reference.refStruct;
  decodeUnmarshaler := @reference.refUnmarshaler;
  decodeString_str := reference_laws.refString_str;
  decodeUnmarshaler_call := @reference_laws.refUnmarshaler_call;
  decodeStruct_absent := reference_laws.refStruct_absent;
  decodeStruct_present := reference_laws.refStruct_present;
|}.

(** ** Facts about first occurrences *)

Section firsts.

Implicit Types (k : string) (ks : list string).

Lemma filter_ne_id k ks : k ∉ ks → filter (λ k', k' ≠ k) ks = ks.
Proof.
  induction ks as [|k' ks IH]; [done|].
  intros [Hne Hn]%not_elem_of_cons.
  rewrite filter_cons_True by congruence. by rewrite IH.
Qed.

Lemma elem_of_firsts k ks : k ∈ firsts ks ↔ k ∈ ks.
Proof.
  induction ks as [|k' ks IH]; simpl; [done|].
  rewrite !elem_of_cons, list_elem_of_filter, IH.
  destruct (decide (k = k')); subst; tauto.
Qed.

Lemma NoDup_firsts ks : NoDup (firsts ks).
Proof.
  induction ks as [|k ks IH]; simpl; [constructor|].
  apply NoDup_cons. split.
  - rewrite list_elem_of_filter. tauto.
  - by apply NoDup_filter.
Qed.

Lemma firsts_NoDup ks : NoDup ks → firsts ks = ks.
Proof.
  induction 1 as [|k ks Hk Hnd IH]; simpl; [done|].
  rewrite IH. f_equal. by apply filter_ne_id.
Qed.

(** One more key at the back: it is new, or its place is taken. *)
Lemma firsts_snoc ks k :
  firsts (ks ++ [k]) = if decide (k ∈ ks) then firsts ks else firsts ks ++ [k].
Proof.
  induction ks as [|k' ks IH].
  - case_decide as Hin; [by apply elem_of_nil in Hin|done].
  - change (firsts ((k' :: ks) ++ [k])) with (k' :: filter (λ k'', k'' ≠ k') (firsts (ks ++ [k]))).
    change (firsts (k' :: ks)) with (k' :: filter (λ k'', k'' ≠ k') (firsts ks)).
    rewrite IH. destruct (decide (k ∈ ks)) as [Hin|Hin].
    + rewrite decide_True by (by right). done.
    + rewrite filter_app. destruct (decide (k = k')) as [->|Hne].
      * rewrite decide_True by left. rewrite filter_cons_False by tauto.
        by rewrite filter_nil, app_nil_r.
      * rewrite decide_False by (rewrite elem_of_cons; tauto).
        by rewrite filter_cons_True.
Qed.

Lemma firsts_app_NoDup ks ks' : NoDup ks → ∃ new, firsts (ks ++ ks') = ks ++ new.
Proof.
  intros Hnd. induction ks' as [|k ks' IH] using rev_ind.
  - exists []. by rewrite !app_nil_r, firsts_NoDup.
  - destruct IH as [new IH]. rewrite app_assoc, firsts_snoc, IH.
    case_decide; [by exists new|]. exists (new ++ [k]). by rewrite app_assoc.
Qed.

End firsts.

(** ** Facts about the ordered map *)

Section orderedmap_facts.

Context {V : Type} `{!Inhabited V}.
Implicit Types (m : OrderedMap V) (k key : string) (v : V).

Import orderedmap.

Lemma wf_NewOrderedMap : wf (@NewOrderedMap V).
Proof.
  split; simpl; [constructor|]. intros k. rewrite lookup_empty.
  split; [by intros ?%elem_of_nil|by intros ?%is_Some_None].
Qed.

(** [Set] on a map of the library: the index gets the value, the list gets
    the key when it is new, and the result tells whether it was. *)
Lemma OrderedMap_Set_spec m key v :
  wf m →
  OrderedMap_Set m key v =
    (mk (<[key := v]> (kv m)) (if decide (key ∈ ll m) then ll m else ll m ++ [key]),
     bool_decide (key ∉ ll m)).
Proof.
  intros [_ Hdom]. unfold OrderedMap_Set.
  destruct (kv m !! key) as [v'|] eqn:Hk.
  - assert (key ∈ ll m) as Hin by (apply Hdom; eauto).
    rewrite decide_True by done. by rewrite bool_decide_eq_false_2 by tauto.
  - assert (key ∉ ll m) as Hin.
    { intros [? ?]%Hdom. congruence. }
    rewrite decide_False by done. by rewrite bool_decide_eq_true_2.
Qed.

Lemma wf_Set m key v : wf m → wf (OrderedMap_Set m key v).1.
Proof.
  intros Hwf. rewrite OrderedMap_Set_spec by done. destruct Hwf as [Hnd Hdom].
  split; simpl.
  - case_decide; [done|]. apply NoDup_app. split_and!; [done| |apply NoDup_singleton].
    intros k Hk ->%list_elem_of_singleton. done.
  - intros k. rewrite lookup_insert_is_Some', <- Hdom. case_decide as Hin.
    + split; [tauto|]. intros [<-|?]; done.
    + rewrite elem_of_app, list_elem_of_singleton. split; intros [?|?]; auto.
Qed.

Lemma OrderedMap_Get_lookup m k :
  OrderedMap_Get m k = match kv m !! k with Some v => (v, true) | None => (inhabitant, false) end.
Proof. done. Qed.

Lemma Iterator_keys m : wf m → fst <$> OrderedMap_Iterator m = ll m.
Proof.
  intros [_ Hdom]. unfold OrderedMap_Iterator.
  assert (∀ k, k ∈ ll m → is_Some (kv m !! k)) as Hall by (intros; by apply Hdom).
  clear Hdom. induction (ll m) as [|k ks IH]; [done|].
  simpl. destruct (Hall k) as [v Hv]; [left|]. rewrite Hv. simpl.
  f_equal. apply IH. intros k' ?. apply Hall. by right.
Qed.

Lemma elem_of_Iterator m k v : wf m → (k, v) ∈ OrderedMap_Iterator m ↔ kv m !! k = Some v.
Proof.
  intros [_ Hdom]. unfold OrderedMap_Iterator. rewrite list_elem_of_omap. split.
  - intros (k' & _ & Hk'). destruct (kv m !! k') eqn:?; simplify_eq/=. done.
  - intros Hk. exists k. split; [apply Hdom; eauto|]. by rewrite Hk.
Qed.

Lemma OrderedMap_Len_length m : wf m → OrderedMap_Len m = Z.of_nat (length (ll m)).
Proof.
  intros [Hnd Hdom]. unfold OrderedMap_Len. f_equal.
  rewrite <- size_dom, <- (size_list_to_set (C := gset string)) by done.
  f_equal. apply set_eq. intros k.
  by rewrite elem_of_dom, elem_of_list_to_set, Hdom.
Qed.

End orderedmap_facts.

(** ** A sequence of [Set] calls on the ordered map *)

Section mapSets_facts.

Context {V : Type}.
Implicit Types (m : OrderedMap V) (calls : list (string * V)).

Import orderedmap.

Lemma mapSets_app m calls calls' :
  mapSets m (calls ++ calls') =
    let '(m1, bs1) := mapSets m calls in
    let '(m2, bs2) := mapSets m1 calls' in
    (m2, bs1 ++ bs2).
Proof.
  revert m. induction calls as [|[k v] calls IH]; intros m; simpl.
  - by destruct (mapSets m calls').
  - destruct (OrderedMap_Set m k v) as [m1 b]. rewrite IH.
    destruct (mapSets m1 calls) as [m2 bs1]. by destruct (mapSets m2 calls').
Qed.

(** A list that ends in [x] and is split at an element: the element is [x],
    or the split is one of the front. *)
Lemma snoc_split {A} (l c1 c2 : list A) (x y : A) :
  l ++ [x] = c1 ++ y :: c2 →
  (c2 = [] ∧ l = c1 ∧ x = y) ∨ (∃ c2', c2 = c2' ++ [x] ∧ l = c1 ++ y :: c2').
Proof.
  destruct c2 as [|z c2' _] using rev_ind; intros Heq.
  - left. apply (app_inj_tail l c1 x y) in Heq as [-> ->]. done.
  - right. exists c2'. rewrite app_comm_cons, app_assoc in Heq.
    apply app_inj_tail in Heq as [-> ->]. done.
Qed.

Lemma mapSets_post m0 calls :
  wf m0 → sets_post m0 (mapSets m0 calls).1 calls (mapSets m0 calls).2.
Proof.
  intros Hwf0. induction calls as [|[k' v'] calls IH] using rev_ind.
  - simpl. split_and!; try done.
    + simpl. rewrite app_nil_r, firsts_NoDup; [done|apply Hwf0].
    + intros c1 k v c2 Heq. by destruct c1.
    + intros c1 k v c2 Heq. by destruct c1.
  - rewrite mapSets_app. destruct (mapSets m0 calls) as [m1 bs1].
    destruct IH as (Hwf & Hll & Hlast & Hkeep & Hlen & Hflag). simpl in *.
    rewrite (OrderedMap_Set_spec m1 k' v' Hwf). simpl.
    assert (k' ∈ ll m1 ↔ k' ∈ ll m0 ++ (fst <$> calls)) as Hin
      by (rewrite Hll; apply elem_of_firsts).
    split_and!.
    + pose proof (wf_Set m1 k' v' Hwf) as Hwf'.
      by rewrite (OrderedMap_Set_spec m1 k' v' Hwf) in Hwf'.
    + simpl. rewrite fmap_app, app_assoc.
      change ([(k', v')].*1) with [k']. rewrite firsts_snoc, Hll.
      repeat case_decide; try done; exfalso;
        match goal with H : context [firsts] |- _ => rewrite elem_of_firsts in H end; tauto.
    + intros c1 k v c2 Heq Hk. simpl.
      apply snoc_split in Heq as [(-> & -> & [= <- <-])|(c2' & -> & ->)].
      * apply lookup_insert_eq.
      * rewrite fmap_app, not_elem_of_app in Hk. destruct Hk as [Hk Hne].
        rewrite lookup_insert_ne; [by eapply Hlast|].
        intros ->. apply Hne. simpl. left.
    + intros k Hk. simpl. rewrite fmap_app, not_elem_of_app in Hk.
      destruct Hk as [Hk Hne]. rewrite lookup_insert_ne; [by apply Hkeep|].
      intros ->. apply Hne. simpl. left.
    + rewrite !length_app, Hlen. done.
    + intros c1 k v c2 Heq.
      apply snoc_split in Heq as [(-> & -> & [= <- <-])|(c2' & -> & ->)].
      * rewrite <- Hlen, lookup_app_r, Nat.sub_diag by done. simpl. f_equal.
        apply bool_decide_ext. by rewrite Hin.
      * rewrite lookup_app_l; [by eapply Hflag|].
        rewrite Hlen, length_app. simpl. lia.
Qed.

End mapSets_facts.

(** ** The registry operations at an allocated struct *)

Section registry_facts.

Context {VarsT : Type}.
Implicit Types (l : nat) (h : heap VarsT) (s : Includes VarsT).
Implicit Types (key k : string) (calls : list (string * option (Include VarsT))).

Ltac run := unfold mbind, M_bind, mret, M_ret, load, store, alloc; simpl.

Lemma Includes_Set_at l h s key value :
  h !! l = Some s →
  Includes_Set (Some l) key value h =
    Ret (OrderedMap_Set (view s) key value).2
        (<[l := mkIncludes (Some (OrderedMap_Set (view s) key value).1)]> h).
Proof.
  intros Hl. unfold Includes_Set. run. rewrite Hl. fold (view s).
  destruct (OrderedMap_Set (view s) key value) as [m b]. run. by rewrite Hl.
Qed.

Lemma setCalls_at l h s calls :
  h !! l = Some s →
  setCalls (Some l) calls h =
    Ret (mapSets (view s) calls).2
        (match calls with
         | [] => h
         | _ => <[l := mkIncludes (Some (mapSets (view s) calls).1)]> h
         end).
Proof.
  revert h s. induction calls as [|[k v] calls IH]; intros h s Hl; [done|].
  simpl. run. rewrite (Includes_Set_at l h s k v Hl).
  destruct (OrderedMap_Set (view s) k v) as [m1 b]. simpl.
  rewrite (IH _ (mkIncludes (Some m1)))
    by (apply list_lookup_insert_eq; by eapply lookup_lt_Some).
  unfold view at 1 2. simpl. destruct (mapSets m1 calls) as [m2 bs] eqn:Hm.
  simpl. f_equal. destruct calls as [|c calls].
  - simpl in Hm. by injection Hm as <- <-.
  - apply list_insert_insert_eq.
Qed.

(** The store after [Set] calls on [l]: the struct at [l] has a map unless
    no call was made, and no other struct has changed. *)
Lemma setCalls_store l h s calls :
  h !! l = Some s →
  ∃ h' s', setCalls (Some l) calls h = Ret (mapSets (view s) calls).2 h' ∧
    h' !! l = Some s' ∧ view s' = (mapSets (view s) calls).1 ∧
    (calls ≠ [] → om s' = Some (mapSets (view s) calls).1) ∧
    (calls = [] → h' = h) ∧
    length h' = length h ∧ (∀ l', l' ≠ l → h' !! l' = h !! l').
Proof.
  intros Hl. rewrite (setCalls_at l h s calls Hl). destruct calls as [|c calls].
  - exists h, s. by split_and!.
  - eexists _, _. split; [done|]. split_and!.
    + apply list_lookup_insert_eq. by eapply lookup_lt_Some.
    + done.
    + done.
    + done.
    + apply length_insert.
    + intros l' Hne. by apply list_lookup_insert_ne.
Qed.

Lemma Includes_All_at l h s :
  h !! l = Some s → Includes_All (Some l) h = Ret (OrderedMap_Iterator (view s)) h.
Proof.
  intros Hl. unfold Includes_All, view. run. rewrite Hl. by destruct (om s).
Qed.

Lemma Includes_Keys_at {Sorter} (sorter : Sorter) l h s :
  h !! l = Some s →
  Includes_Keys (Some l) sorter h = Ret (fst <$> OrderedMap_Iterator (view s)) h.
Proof.
  intros Hl. unfold Includes_Keys, mbind, M_bind. by rewrite (Includes_All_at l h s Hl).
Qed.

Lemma Includes_Values_at {Sorter} (sorter : Sorter) l h s :
  h !! l = Some s →
  Includes_Values (Some l) sorter h = Ret (snd <$> OrderedMap_Iterator (view s)) h.
Proof.
  intros Hl. unfold Includes_Values, mbind, M_bind. by rewrite (Includes_All_at l h s Hl).
Qed.

Lemma Includes_Len_at l h s :
  h !! l = Some s → Includes_Len (Some l) h = Ret (OrderedMap_Len (view s)) h.
Proof.
  intros Hl. unfold Includes_Len, view. run. rewrite Hl. by destruct (om s).
Qed.

Lemma Includes_Get_at l h s m key :
  h !! l = Some s → om s = Some m →
  Includes_Get (Some l) key h = Ret (OrderedMap_Get m key) h.
Proof.
  intros Hl Hm. unfold Includes_Get. run. by rewrite Hl, Hm.
Qed.

Lemma Includes_Get_nil_om l h s key :
  h !! l = Some s → om s = None →
  Includes_Get (Some l) key h = Ret (Some zeroInclude, false) h.
Proof.
  intros Hl Hm. unfold Includes_Get. run. by rewrite Hl, Hm.
Qed.

(** [Get] finds [v] at a registry exactly when the index of its map has it. *)
Lemma Includes_Get_found l h s key v :
  h !! l = Some s →
  Includes_Get (Some l) key h = Ret (v, true) h ↔ orderedmap.kv (view s) !! key = Some v.
Proof.
  intros Hl. unfold view. destruct (om s) as [m|] eqn:Hm.
  - rewrite (Includes_Get_at l h s m key Hl Hm). unfold OrderedMap_Get.
    destruct (orderedmap.kv m !! key); split; intros; simplify_eq; done.
  - rewrite (Includes_Get_nil_om l h s key Hl Hm). simpl. rewrite lookup_empty.
    split; intros; simplify_eq.
Qed.

End registry_facts.

(** ** The decoder and the copy of an include record *)

Section Include_facts.

Context {VarsT : Type} `{!Decoder VarsT}.
Implicit Types (include r : Include VarsT) (node : Node).

(** Every field but [Aliases] is copied, [Vars] through its own [DeepCopy];
    [Aliases] is the nil slice whatever the source has. *)
Lemma Include_DeepCopy_fields (Vars_DeepCopy : option VarsT → option VarsT) include :
  ∃ c, Include_DeepCopy Vars_DeepCopy (Some include) = Some c ∧
    Namespace c = Namespace include ∧ Taskfile c = Taskfile include ∧
    Dir c = Dir include ∧ Optional c = Optional include ∧
    Internal c = Internal include ∧ AdvancedImport c = AdvancedImport include ∧
    Flatten c = Flatten include ∧ Vars c = Vars_DeepCopy (Vars include) ∧
    Aliases c = [].
Proof. eexists. split; [reflexivity|]. simpl. auto 10. Qed.

Lemma Include_DeepCopy_nil (Vars_DeepCopy : option VarsT → option VarsT) :
  Include_DeepCopy Vars_DeepCopy None = None.
Proof. reflexivity. Qed.

(** C3: a node that is a plain string scalar with the value [s] decodes into
    an include record without error; decoded into a fresh record it gives
    the record with [Taskfile = s], [AdvancedImport = false] and every other
    field zero, and decoded into any record it writes [Taskfile] alone. *)
Theorem scalar_form_sets_Taskfile include node (s : string) :
  yaml.Kind node = yaml.ScalarNode → yaml.Tag node = yaml.strTag → yaml.Value node = s →
  Include_UnmarshalYAML zeroInclude node =
    inr (mkInclude "" s "" false false [] false None false) ∧
  Include_UnmarshalYAML include node =
    inr (mkInclude (Namespace include) s (Dir include) (Optional include)
           (Internal include) (Aliases include) (AdvancedImport include)
           (Vars include) (Flatten include)).
Proof.
  intros Hk Ht <-. unfold Include_UnmarshalYAML.
  rewrite Hk, (decodeString_str node Hk Ht). done.
Qed.

(** C4: a mapping node that decodes into an include record leaves
    [AdvancedImport] true whatever its fields are, and the seven fields
    Taskfile, Dir, Optional, Internal, Flatten, Aliases and Vars as the
    library decodes the mapping into the fresh struct: a field whose key the
    mapping has holds the decoded value of that entry, a field whose key it
    does not have holds its zero value. [Namespace] is not written. *)
Theorem mapping_form_copies_fields include node r :
  yaml.Kind node = yaml.MappingNode →
  Include_UnmarshalYAML include node = inr r →
  AdvancedImport r = true ∧
  Namespace r = Namespace include ∧
  decodeStruct node = inr (fieldsOf r) ∧
  (yaml.plain_keys node →
     present_spec decodeString decodeBool decodeStrings decodeVars node (fieldsOf r) ∧
     absent_spec node (fieldsOf r)).
Proof.
  intros Hk. unfold Include_UnmarshalYAML. rewrite Hk.
  destruct (decodeStruct node) as [e|f] eqn:Hf; [discriminate|].
  intros [= <-]. simpl. split_and!; [done|done|by destruct f|].
  intros Hplain. assert (fieldsOf
    (mkInclude (Namespace include) (includedTaskfile.Taskfile f) (includedTaskfile.Dir f)
       (includedTaskfile.Optional f) (includedTaskfile.Internal f)
       (includedTaskfile.Aliases f) true (includedTaskfile.Vars f)
       (includedTaskfile.Flatten f)) = f) as -> by (by destruct f).
  split.
  - by apply decodeStruct_present.
  - by apply decodeStruct_absent.
Qed.

(** C2, amended: after a successful decode the record's [Taskfile] is the
    string the node decoded to: the decoded scalar in the scalar form (the
    text of the scalar when it is a string), the decoded [taskfile] field in
    the mapping form, which is empty when the mapping has no such key.
    Nothing makes it non-empty. *)
Theorem decoded_Taskfile_is_what_the_node_holds include node r :
  Include_UnmarshalYAML include node = inr r →
  (yaml.Kind node = yaml.ScalarNode ∧ decodeString node = inr (Taskfile r) ∧
   (yaml.Tag node = yaml.strTag → Taskfile r = yaml.Value node)) ∨
  (yaml.Kind node = yaml.MappingNode ∧
   (∃ f, decodeStruct node = inr f ∧ Taskfile r = includedTaskfile.Taskfile f) ∧
   (yaml.plain_keys node → "taskfile" ∉ yaml.keys node → Taskfile r = "")).
Proof.
  unfold Include_UnmarshalYAML. destruct (yaml.Kind node) eqn:Hk; try discriminate.
  - intros Hr. right. split; [done|].
    destruct (decodeStruct node) as [e|f] eqn:Hf; [discriminate|].
    injection Hr as <-. simpl. split; [by exists f|].
    intros Hplain Hn. by apply (decodeStruct_absent node f Hk Hplain Hf).
  - intros Hr. left. split; [done|].
    destruct (decodeString node) as [e|str] eqn:Hs; [discriminate|].
    injection Hr as <-. simpl. split; [done|].
    intros Ht. rewrite (decodeString_str node Hk Ht) in Hs. congruence.
Qed.

(** The record's decoder reports a type mismatch for the nodes that are
    neither scalars nor mappings, and for no other. *)
Lemma Include_UnmarshalYAML_mismatch include node :
  (∃ n, Include_UnmarshalYAML include node = inl (TypeMismatch "include" n)) ↔
  yaml.Kind node ≠ yaml.ScalarNode ∧ yaml.Kind node ≠ yaml.MappingNode.
Proof.
  unfold Include_UnmarshalYAML. split.
  - intros [n Hn]. destruct (yaml.Kind node); try done.
    + by destruct (decodeStruct node).
    + by destruct (decodeString node).
  - intros [Hs Hm]. exists node. by destruct (yaml.Kind node).
Qed.

End Include_facts.

(** ** Insertion order *)

Section order.

Context {VarsT : Type}.
Implicit Types (l : nat) (h : heap VarsT) (s : Includes VarsT).
Implicit Types (key k : string) (calls : list (string * option (Include VarsT))).

(** The keys a registry yields are the list of its map. *)
Lemma registry_Keys {Sorter} (sorter : Sorter) l h s :
  h !! l = Some s → orderedmap.wf (view s) →
  Includes_Keys (Some l) sorter h = Ret (orderedmap.ll (view s)) h.
Proof.
  intros Hl Hwf. by rewrite (Includes_Keys_at sorter l h s Hl), Iterator_keys.
Qed.

(** The zero value [Includes{}] and the struct of [NewIncludes()] are
    registries, and [Set] keeps a registry one. *)
Lemma registry_new l h :
  h !! l = Some (mkIncludes None) ∨ h !! l = Some (mkIncludes (Some NewOrderedMap)) →
  registry l h.
Proof.
  intros [Hl|Hl]; eexists; (split; [exact Hl|]); apply wf_NewOrderedMap.
Qed.

Lemma Includes_Set_registry l h key value :
  registry l h → ∃ b h', Includes_Set (Some l) key value h = Ret b h' ∧ registry l h'.
Proof.
  intros (s & Hl & Hwf). rewrite (Includes_Set_at l h s key value Hl).
  eexists _, _. split; [done|]. eexists. split.
  - apply list_lookup_insert_eq. by eapply lookup_lt_Some.
  - by apply wf_Set.
Qed.

(** [Set] calls on a registry leave a registry; its map is what the calls
    make of the map it had. *)
Lemma setCalls_registry l h s calls :
  h !! l = Some s → orderedmap.wf (view s) →
  ∃ h' s', setCalls (Some l) calls h = Ret (mapSets (view s) calls).2 h' ∧
    h' !! l = Some s' ∧
    sets_post (view s) (view s') calls (mapSets (view s) calls).2.
Proof.
  intros Hl Hwf.
  destruct (setCalls_store l h s calls Hl) as (h' & s' & Hrun & Hl' & Hview & _).
  exists h', s'. split_and!; [done|done|]. rewrite Hview. by apply mapSets_post.
Qed.

(** The last call that writes a key. *)
Lemma last_occurrence {A} (k : string) (xs : list (string * A)) :
  k ∈ fst <$> xs → ∃ c1 v c2, xs = c1 ++ (k, v) :: c2 ∧ k ∉ fst <$> c2.
Proof.
  induction xs as [|[k' v'] xs IH]; [by intros ?%elem_of_nil|].
  intros Hin. destruct (decide (k ∈ fst <$> xs)) as [Hk|Hk].
  - destruct (IH Hk) as (c1 & v & c2 & -> & Hc2). by exists ((k', v') :: c1), v, c2.
  - rewrite fmap_cons in Hin. apply elem_of_cons in Hin as [->|?]; [|done].
    by exists [], v', xs.
Qed.

(** C7: for every sequence of [Set] calls on a registry, iteration yields the
    keys in the order of their first insertion, after the keys the registry
    had; a call on a key that is already there returns false and leaves the
    positions alone, and every key has the record written to it last. [All],
    [Keys] and [Values] agree, and [Get] finds exactly what [All] yields. *)
Theorem Set_keeps_first_insertion_order {Sorter} (sorter : Sorter) l h calls keys0 :
  registry l h →
  Includes_Keys (Some l) sorter h = Ret keys0 h →
  ∃ bs h' all,
    setCalls (Some l) calls h = Ret bs h' ∧
    Includes_All (Some l) h' = Ret all h' ∧
    Includes_Keys (Some l) sorter h' = Ret (fst <$> all) h' ∧
    Includes_Values (Some l) sorter h' = Ret (snd <$> all) h' ∧
    fst <$> all = firsts (keys0 ++ (fst <$> calls)) ∧
    (∃ new, fst <$> all = keys0 ++ new) ∧
    (∀ k v, (k, v) ∈ all ↔ Includes_Get (Some l) k h' = Ret (v, true) h') ∧
    (∀ c1 k v c2, calls = c1 ++ (k, v) :: c2 → k ∉ fst <$> c2 →
       Includes_Get (Some l) k h' = Ret (v, true) h') ∧
    (∀ k v, k ∉ fst <$> calls → Includes_Get (Some l) k h = Ret (v, true) h →
       Includes_Get (Some l) k h' = Ret (v, true) h') ∧
    length bs = length calls ∧
    (∀ c1 k v c2, calls = c1 ++ (k, v) :: c2 →
       bs !! length c1 = Some (bool_decide (k ∉ keys0 ++ (fst <$> c1)))).
Proof.
  intros (s & Hl & Hwf) Hkeys.
  rewrite (registry_Keys sorter l h s Hl Hwf) in Hkeys. injection Hkeys as <-.
  destruct (setCalls_registry l h s calls Hl Hwf)
    as (h' & s' & Hrun & Hl' & Hwf' & Hll & Hlast & Hkeep & Hlen & Hflag).
  exists (mapSets (view s) calls).2, h', (OrderedMap_Iterator (view s')).
  split_and!.
  - done.
  - by apply Includes_All_at.
  - by apply Includes_Keys_at.
  - by apply Includes_Values_at.
  - by rewrite Iterator_keys.
  - rewrite Iterator_keys, Hll by done. apply firsts_app_NoDup, Hwf.
  - intros k v. by rewrite elem_of_Iterator, (Includes_Get_found l h' s').
  - intros c1 k v c2 Heq Hk. apply (Includes_Get_found l h' s' k v Hl'). eauto.
  - intros k v Hk Hget. apply (Includes_Get_found l h' s' k v Hl').
    rewrite Hkeep by done. by apply (Includes_Get_found l h s k v Hl).
  - done.
  - done.
Qed.

End order.

(** ** Decoding a registry *)

Section decode.

Context {VarsT : Type} `{!Decoder VarsT}.
Implicit Types (l : nat) (h : heap VarsT) (s : Includes VarsT) (node : Node).
Implicit Types (key k : string) (calls : list (string * option (Include VarsT))).
Implicit Types (content pre post : list Node) (ps : list (Node * Node)).

(** A value that is a string, a mapping or a sequence is decoded by the
    method of the record. *)
Lemma decodeValue_ordinary node :
  yaml.ordinary node → decodeValue node = Include_UnmarshalYAML zeroInclude node.
Proof. intros Ho. unfold decodeValue. by apply decodeUnmarshaler_call. Qed.

(** The shorthand [namespace: path]. *)
Lemma decodeValue_str node :
  yaml.Kind node = yaml.ScalarNode → yaml.Tag node = yaml.strTag →
  decodeValue node = inr (mkInclude "" (yaml.Value node) "" false false [] false None false).
Proof.
  intros Hk Ht. rewrite decodeValue_ordinary by (left; done).
  unfold Include_UnmarshalYAML. by rewrite Hk, (decodeString_str node Hk Ht).
Qed.

(** A value of any other shape than a string or a mapping is refused. *)
Lemma decodeValue_sequence node :
  yaml.Kind node = yaml.SequenceNode → yaml.Tag node = yaml.seqTag →
  decodeValue node = inl (TypeMismatch "include" node).
Proof.
  intros Hk Ht. rewrite decodeValue_ordinary by (right; right; done).
  unfold Include_UnmarshalYAML. by rewrite Hk.
Qed.

Lemma decoded_keys ps calls :
  Forall2 (λ kv call, ∃ v, decodeValue (snd kv) = inr v ∧
             call = (yaml.Value (fst kv), Some (setNamespace v (yaml.Value (fst kv)))))
    ps calls →
  fst <$> calls = (yaml.Value ∘ fst) <$> ps.
Proof.
  induction 1 as [|kv call ps calls (v & _ & ->) _ IH]; [done|].
  by rewrite !fmap_cons, IH.
Qed.

Lemma decodes_to_keys content calls :
  decodes_to content calls → fst <$> calls = (yaml.Value ∘ fst) <$> yaml.pairs content.
Proof. intros [_ Hall]. by apply decoded_keys. Qed.

(** The loop is the sequence of [Set] calls with the decoded records, up to
    the first value that does not decode. *)
Lemma decodeContent_prefix (includes : ptr) node content calls post h :
  decodes_to content calls →
  decodeContent includes node (content ++ post) h =
    match setCalls includes calls h with
    | Ret _ h' => decodeContent includes node post h'
    | Panic => Panic
    end.
Proof.
  intros [Hflat Hall]. rewrite <- Hflat. clear Hflat. revert h.
  induction Hall as [|[kn vn] call ps calls (v & Hv & ->) _ IH]; intros h; [done|].
  simpl in *. rewrite Hv. unfold mbind, M_bind.
  destruct (Includes_Set includes _ _ h) as [b h1|]; [|done].
  rewrite IH. by destruct (setCalls includes calls h1).
Qed.

Lemma decodeContent_all (includes : ptr) node content calls h :
  decodes_to content calls →
  decodeContent includes node content h =
    match setCalls includes calls h with
    | Ret _ h' => Ret None h'
    | Panic => Panic
    end.
Proof.
  intros Hd. rewrite <- (app_nil_r content) at 1.
  by rewrite (decodeContent_prefix includes node content calls [] h Hd).
Qed.

(** Induction on a list two elements at a time. *)
Lemma list_pair_ind {A} (P : list A → Prop) :
  P [] → (∀ x, P [x]) → (∀ x y xs, P xs → P (x :: y :: xs)) → ∀ xs, P xs.
Proof.
  intros Hnil Hone Hstep xs. cut (P xs ∧ ∀ x, P (x :: xs)); [tauto|].
  induction xs as [|y xs [IH1 IH2]]; split; auto.
Qed.

(** Every error of the loop wraps the cause in a decode error at the mapping. *)
Lemma decodeContent_error (includes : ptr) node content h e h' :
  decodeContent includes node content h = Ret (Some e) h' →
  ∃ cause, e = DecodeError (Some cause) node.
Proof.
  revert h. induction content as [|kn|kn vn content IH] using list_pair_ind;
    intros h; [done|done|].
  simpl. destruct (decodeValue vn) as [err|v].
  - intros [= <- <-]. by exists err.
  - unfold mbind, M_bind. destruct (Includes_Set includes _ _ h) as [b h1|]; [|done].
    apply IH.
Qed.

(** C5: the registry's decoder fails with the type mismatch that names
    "includes" exactly for the nodes that are not mappings, and the record's
    decoder with the one that names "include" exactly for the nodes that are
    neither scalars nor mappings; the error points at the node. *)
Theorem type_mismatch_iff_wrong_shape (includes : ptr) (include : Include VarsT) node h :
  ((∃ n, returns (Includes_UnmarshalYAML includes node h) (Some (TypeMismatch "includes" n)))
     ↔ yaml.Kind node ≠ yaml.MappingNode) ∧
  (yaml.Kind node ≠ yaml.MappingNode →
     Includes_UnmarshalYAML includes node h = Ret (Some (TypeMismatch "includes" node)) h) ∧
  ((∃ n, Include_UnmarshalYAML include node = inl (TypeMismatch "include" n))
     ↔ yaml.Kind node ≠ yaml.ScalarNode ∧ yaml.Kind node ≠ yaml.MappingNode) ∧
  (yaml.Kind node ≠ yaml.ScalarNode ∧ yaml.Kind node ≠ yaml.MappingNode →
     Include_UnmarshalYAML include node = inl (TypeMismatch "include" node)).
Proof.
  assert (yaml.Kind node ≠ yaml.MappingNode →
    Includes_UnmarshalYAML includes node h = Ret (Some (TypeMismatch "includes" node)) h) as Hno.
  { intros Hk. unfold Includes_UnmarshalYAML. by destruct (yaml.Kind node). }
  split_and!.
  - split.
    + intros (n & h' & Hrun) Hk. unfold Includes_UnmarshalYAML in Hrun. rewrite Hk in Hrun.
      by apply decodeContent_error in Hrun as [cause ?].
    + intros Hk. exists node, h. by apply Hno.
  - done.
  - apply Include_UnmarshalYAML_mismatch.
  - intros [Hs Hm]. unfold Include_UnmarshalYAML. by destruct (yaml.Kind node).
Qed.

(** The records the loop stores are stamped with their keys. *)
Lemma decodes_to_Namespace content calls k v :
  decodes_to content calls → (k, v) ∈ calls → ∃ r, v = Some r ∧ Namespace r = k.
Proof.
  intros [_ Hall] Hin. induction Hall as [|kv call ps calls (r & _ & ->) _ IH].
  - by apply elem_of_nil in Hin.
  - apply elem_of_cons in Hin as [[= -> ->]|Hin]; [|by apply IH].
    by eexists.
Qed.

(** An entry of the mapping and the call made for it. *)
Lemma decodes_to_split content calls p1 kn vn p2 :
  decodes_to content calls → yaml.pairs content = p1 ++ (kn, vn) :: p2 →
  ∃ c1 v c2, calls = c1 ++ (yaml.Value kn, Some (setNamespace v (yaml.Value kn))) :: c2 ∧
    decodeValue vn = inr v ∧
    fst <$> c1 = (yaml.Value ∘ fst) <$> p1 ∧ fst <$> c2 = (yaml.Value ∘ fst) <$> p2.
Proof.
  intros [_ Hall] Heq. rewrite Heq in Hall.
  apply Forall2_app_inv_l in Hall as (c1 & c' & H1 & H2 & ->).
  apply Forall2_cons_inv_l in H2 as (call & c2 & (v & Hv & ->) & H2 & ->).
  exists c1, v, c2. split_and!; [done|done| |]; by apply decoded_keys.
Qed.

(** What is observed of a registry after the [Set] calls of a decoded
    mapping: the keys in the order of their first occurrence, their number,
    and under every key the record of its last entry. *)
Lemma decoded_calls_observed {Sorter} (sorter : Sorter) l h content calls keys0 :
  registry l h →
  Includes_Keys (Some l) sorter h = Ret keys0 h →
  decodes_to content calls →
  ∃ bs h',
    setCalls (Some l) calls h = Ret bs h' ∧
    Includes_Keys (Some l) sorter h' = Ret (firsts (keys0 ++ (fst <$> calls))) h' ∧
    Includes_Len (Some l) h' = Ret (Z.of_nat (length (firsts (keys0 ++ (fst <$> calls))))) h' ∧
    (∀ p1 kn vn p2, yaml.pairs content = p1 ++ (kn, vn) :: p2 →
       yaml.Value kn ∉ (yaml.Value ∘ fst) <$> p2 →
       ∃ v, decodeValue vn = inr v ∧
         Includes_Get (Some l) (yaml.Value kn) h' =
           Ret (Some (setNamespace v (yaml.Value kn)), true) h') ∧
    (∀ k, k ∈ fst <$> calls →
       ∃ r, Includes_Get (Some l) k h' = Ret (Some r, true) h' ∧ Namespace r = k).
Proof.
  intros (s & Hl & Hwf) Hkeys Hd.
  rewrite (registry_Keys sorter l h s Hl Hwf) in Hkeys. injection Hkeys as <-.
  destruct (setCalls_registry l h s calls Hl Hwf)
    as (h' & s' & Hrun & Hl' & Hwf' & Hll & Hlast & _).
  exists (mapSets (view s) calls).2, h'. split_and!.
  - done.
  - by rewrite (registry_Keys sorter l h' s' Hl' Hwf'), Hll.
  - by rewrite (Includes_Len_at l h' s' Hl'), OrderedMap_Len_length, Hll.
  - intros p1 kn vn p2 Heq Hk.
    destruct (decodes_to_split content calls p1 kn vn p2 Hd Heq)
      as (c1 & v & c2 & Hc & Hv & _ & Hc2).
    exists v. split; [done|]. apply (Includes_Get_found l h' s' _ _ Hl').
    apply (Hlast c1 _ _ c2 Hc). by rewrite Hc2.
  - intros k Hk. destruct (last_occurrence k calls Hk) as (c1 & v & c2 & Hc & Hc2).
    destruct (decodes_to_Namespace content calls k v Hd) as (r & -> & Hns).
    { rewrite Hc. apply elem_of_app. right. left. }
    exists r. split; [|done]. apply (Includes_Get_found l h' s' _ _ Hl'). eauto.
Qed.

(** C6, amended: a mapping node whose entries all decode is decoded into a
    registry by taking the pairs in source order, decoding each value into a
    record, stamping the record's [Namespace] with the key and calling [Set]
    with the key. Afterwards [Keys] yields the keys the registry had and then
    the keys of the mapping in the order of their first occurrence, which is
    the source key order when the registry was empty and the mapping repeats
    no key; under every key of the mapping [Get] finds the record decoded
    from the last entry with that key, and its [Namespace] is the key. *)
Theorem decode_keeps_first_occurrence_order {Sorter} (sorter : Sorter) l h node calls keys0 :
  registry l h →
  Includes_Keys (Some l) sorter h = Ret keys0 h →
  yaml.Kind node = yaml.MappingNode →
  decodes_to (yaml.Content node) calls →
  ∃ bs h',
    Includes_UnmarshalYAML (Some l) node h = Ret None h' ∧
    setCalls (Some l) calls h = Ret bs h' ∧
    fst <$> calls = yaml.keys node ∧
    Includes_Keys (Some l) sorter h' = Ret (firsts (keys0 ++ yaml.keys node)) h' ∧
    (keys0 = [] → NoDup (yaml.keys node) →
       Includes_Keys (Some l) sorter h' = Ret (yaml.keys node) h') ∧
    Includes_Len (Some l) h' =
      Ret (Z.of_nat (length (firsts (keys0 ++ yaml.keys node)))) h' ∧
    (∀ p1 kn vn p2, yaml.pairs (yaml.Content node) = p1 ++ (kn, vn) :: p2 →
       yaml.Value kn ∉ (yaml.Value ∘ fst) <$> p2 →
       ∃ v, decodeValue vn = inr v ∧
         Includes_Get (Some l) (yaml.Value kn) h' =
           Ret (Some (setNamespace v (yaml.Value kn)), true) h') ∧
    (∀ k, k ∈ yaml.keys node →
       ∃ r, Includes_Get (Some l) k h' = Ret (Some r, true) h' ∧ Namespace r = k).
Proof.
  intros Hreg Hkeys Hk Hd.
  destruct (decoded_calls_observed sorter l h (yaml.Content node) calls keys0 Hreg Hkeys Hd)
    as (bs & h' & Hrun & Hkeys' & Hlen & Hlast & Hns).
  pose proof (decodes_to_keys _ _ Hd) as Hcalls. fold (yaml.keys node) in Hcalls.
  rewrite Hcalls in Hkeys', Hlen, Hns.
  exists bs, h'. split_and!; try done.
  - unfold Includes_UnmarshalYAML. rewrite Hk.
    by rewrite (decodeContent_all (Some l) node _ calls h Hd), Hrun.
  - intros -> Hnd. by rewrite Hkeys', app_nil_l, firsts_NoDup.
Qed.

(** C10: the registry's decoder is not atomic. When the value of an entry
    does not decode, the call returns the decode error that wraps the cause
    and points at the mapping, and the registry holds what the [Set] calls
    for the entries before it have put there: [Keys] and [Len] count them and
    [Get] finds their records. *)
Theorem failed_decode_keeps_earlier_entries {Sorter} (sorter : Sorter) l h node
    pre calls keyNode valueNode post cause keys0 :
  registry l h →
  Includes_Keys (Some l) sorter h = Ret keys0 h →
  yaml.Kind node = yaml.MappingNode →
  yaml.Content node = pre ++ keyNode :: valueNode :: post →
  decodes_to pre calls →
  decodeValue valueNode = inl cause →
  ∃ bs h',
    Includes_UnmarshalYAML (Some l) node h = Ret (Some (DecodeError (Some cause) node)) h' ∧
    setCalls (Some l) calls h = Ret bs h' ∧
    fst <$> calls = (yaml.Value ∘ fst) <$> yaml.pairs pre ∧
    Includes_Keys (Some l) sorter h' = Ret (firsts (keys0 ++ (fst <$> calls))) h' ∧
    Includes_Len (Some l) h' = Ret (Z.of_nat (length (firsts (keys0 ++ (fst <$> calls))))) h' ∧
    (∀ k, k ∈ fst <$> calls →
       ∃ r, Includes_Get (Some l) k h' = Ret (Some r, true) h' ∧ Namespace r = k).
Proof.
  intros Hreg Hkeys Hk Hc Hd Hv.
  destruct (decoded_calls_observed sorter l h pre calls keys0 Hreg Hkeys Hd)
    as (bs & h' & Hrun & Hkeys' & Hlen & _ & Hns).
  exists bs, h'. split_and!; try done.
  - unfold Includes_UnmarshalYAML. rewrite Hk, Hc.
    rewrite (decodeContent_prefix (Some l) node pre calls _ h Hd), Hrun.
    simpl. by rewrite Hv.
  - by apply decodes_to_keys.
Qed.

End decode.

(** ** Uninitialized registries *)

Section uninitialized.

Context {VarsT : Type}.
Implicit Types (l : nat) (h : heap VarsT) (includes : ptr) (key : string).

(** C8, amended: on an uninitialized registry, in any store, the reads do not
    fail: [Len] returns 0, [Get] returns not-found with a zero-value record
    for every key, and [All], [Keys] and [Values] yield nothing. On an empty
    initialized registry [Len], [All], [Keys], [Values] and the not-found of
    [Get] are the same; the record that comes with the not-found is not: the
    empty initialized registry returns the nil record. *)
Theorem reads_of_uninitialized_registry {Sorter} (sorter : Sorter) (u e : ptr) h h' key :
  (uninitialized u h →
     Includes_Len u h = Ret 0%Z h ∧
     Includes_All u h = Ret [] h ∧
     Includes_Keys u sorter h = Ret [] h ∧
     Includes_Values u sorter h = Ret [] h ∧
     Includes_Get u key h = Ret (Some zeroInclude, false) h) ∧
  (empty_initialized e h' →
     Includes_Len e h' = Ret 0%Z h' ∧
     Includes_All e h' = Ret [] h' ∧
     Includes_Keys e sorter h' = Ret [] h' ∧
     Includes_Values e sorter h' = Ret [] h' ∧
     Includes_Get e key h' = Ret (None, false) h').
Proof.
  split.
  - intros Hu.
    assert (Includes_All u h = Ret [] h) as HAu.
    { destruct Hu as [->|(lu & -> & Hlu)]; [done|].
      by rewrite (Includes_All_at lu h _ Hlu). }
    split_and!.
    + destruct Hu as [->|(lu & -> & Hlu)]; [done|].
      by rewrite (Includes_Len_at lu h _ Hlu).
    + done.
    + unfold Includes_Keys, mbind, M_bind. by rewrite HAu.
    + unfold Includes_Values, mbind, M_bind. by rewrite HAu.
    + destruct Hu as [->|(lu & -> & Hlu)]; [done|].
      by rewrite (Includes_Get_nil_om lu h _ key Hlu).
  - intros (le & -> & Hle).
    assert (Includes_All (VarsT := VarsT) (Some le) h' = Ret [] h') as HAe
      by (by rewrite (Includes_All_at le h' _ Hle)).
    split_and!.
    + by rewrite (Includes_Len_at le h' _ Hle).
    + done.
    + unfold Includes_Keys, mbind, M_bind. by rewrite HAe.
    + unfold Includes_Values, mbind, M_bind. by rewrite HAe.
    + by rewrite (Includes_Get_at le h' _ NewOrderedMap key Hle).
Qed.

(** [NewIncludes()] makes an empty initialized registry. *)
Lemma NewIncludes_empty h :
  NewIncludes [] h = Ret (Some (length h)) (h ++ [mkIncludes (Some NewOrderedMap)]) ∧
  empty_initialized (Some (length h)) (h ++ [mkIncludes (Some NewOrderedMap)]).
Proof.
  split; [done|]. exists (length h). split; [done|]. by apply list_lookup_middle.
Qed.

(** [Set] on a struct without a map makes the map, and the entry is there. *)
Lemma Set_makes_the_map l h key value :
  h !! l = Some (mkIncludes None) →
  ∃ h', Includes_Set (Some l) key value h = Ret true h' ∧
    Includes_Get (Some l) key h' = Ret (value, true) h' ∧
    Includes_Len (Some l) h' = Ret 1%Z h' ∧
    Includes_All (Some l) h' = Ret [(key, value)] h'.
Proof.
  intros Hl. rewrite (Includes_Set_at l h _ key value Hl).
  assert (l < length h) as Hlt by (by eapply lookup_lt_Some).
  assert (OrderedMap_Set (view (mkIncludes None)) key value =
          (orderedmap.mk (<[key := value]> ∅) [key], true)) as ->.
  { unfold OrderedMap_Set, view. simpl. by rewrite lookup_empty. }
  eexists. split; [done|].
  set (s' := mkIncludes (Some _)).
  assert (<[l:=s']> h !! l = Some s') as Hl' by (by apply list_lookup_insert_eq).
  split_and!.
  - rewrite (Includes_Get_at l _ s' _ key Hl' eq_refl). unfold OrderedMap_Get.
    cbn [fst orderedmap.kv]. by rewrite lookup_insert_eq.
  - rewrite (Includes_Len_at l _ s' Hl'). unfold OrderedMap_Len, view, s'.
    cbn [fst om orderedmap.kv]. by rewrite map_size_insert_None, map_size_empty.
  - rewrite (Includes_All_at l _ s' Hl'). unfold OrderedMap_Iterator, view, s'.
    cbn [fst om orderedmap.kv orderedmap.ll omap list_omap]. by rewrite lookup_insert_eq.
Qed.

(** C9, for the nil pointer: [Set] does not fail and returns true, but it
    writes to a struct of its own; through the nil pointer [Get] does not
    find the key, [Len] returns 0 and [All] yields nothing. *)
Theorem Set_on_nil_pointer_is_lost h key value :
  ∃ h', Includes_Set None key value h = Ret true h' ∧
    Includes_Get None key h' = Ret (Some zeroInclude, false) h' ∧
    Includes_Len None h' = Ret 0%Z h' ∧
    Includes_All None h' = Ret [] h'.
Proof.
  assert (Includes_Set None key value h =
          Includes_Set (Some (length h)) key value (h ++ [mkIncludes (Some NewOrderedMap)]))
    as -> by done.
  rewrite (Includes_Set_at (length h) _ (mkIncludes (Some NewOrderedMap)) key value)
    by (by apply list_lookup_middle).
  assert (OrderedMap_Set (view (mkIncludes (Some NewOrderedMap))) key value =
          (orderedmap.mk (<[key := value]> ∅) [key], true)) as ->.
  { unfold OrderedMap_Set, view. simpl. by rewrite lookup_empty. }
  by eexists.
Qed.

End uninitialized.

(** ** What the reads of a registry show, and what [Set] changes *)

Section reads.

Context {VarsT : Type}.
Implicit Types (l : nat) (h : heap VarsT) (s : Includes VarsT) (p includes : ptr).
Implicit Types (key k : string).

(** [Set] returns when its receiver is nil or allocated, and it leaves the
    structs of the store that are not its receiver's. *)
Lemma Includes_Set_frame includes h key value :
  (∀ l, includes = Some l → is_Some (h !! l)) →
  ∃ isNew h', Includes_Set includes key value h = Ret isNew h' ∧
    (∀ l s, h !! l = Some s → Some l ≠ includes → h' !! l = Some s) ∧
    length h' = (if includes is None then S (length h) else length h).
Proof.
  intros Halloc. destruct includes as [l0|].
  - destruct (Halloc l0 eq_refl) as [s0 Hl0].
    rewrite (Includes_Set_at l0 h s0 key value Hl0). eexists _, _. split_and!; [done| |].
    + intros l s Hl Hne. rewrite list_lookup_insert_ne; [done|congruence].
    + apply length_insert.
  - assert (Includes_Set None key value h =
            Includes_Set (Some (length h)) key value (h ++ [mkIncludes (Some NewOrderedMap)]))
      as -> by done.
    rewrite (Includes_Set_at (length h) _ (mkIncludes (Some NewOrderedMap)) key value)
      by (by apply list_lookup_middle).
    eexists _, _. split_and!; [done| |].
    + intros l s Hl _. pose proof (lookup_lt_Some _ _ _ Hl).
      rewrite list_lookup_insert_ne by lia. by rewrite lookup_app_l.
    + rewrite length_insert, length_app. simpl. lia.
Qed.

(** A [Set] that returns had a receiver that is nil or allocated. *)
Lemma Includes_Set_allocated includes h key value isNew h' :
  Includes_Set includes key value h = Ret isNew h' →
  ∀ l, includes = Some l → is_Some (h !! l).
Proof.
  intros Hrun l ->. destruct (h !! l) eqn:Hl; [done|].
  unfold Includes_Set, mbind, M_bind, mret, M_ret, load in Hrun. by rewrite Hl in Hrun.
Qed.

Lemma Includes_Set_keeps_registry includes l h key value isNew h' :
  registry l h → Includes_Set includes key value h = Ret isNew h' → registry l h'.
Proof.
  intros (s & Hl & Hwf) Hrun. destruct (decide (includes = Some l)) as [->|Hne].
  - rewrite (Includes_Set_at l h s key value Hl) in Hrun. injection Hrun as _ <-.
    eexists. split; [apply list_lookup_insert_eq; by eapply lookup_lt_Some|].
    by apply wf_Set.
  - destruct (Includes_Set_frame includes h key value) as (b & h'' & Hrun' & Hsame & _).
    { by eapply Includes_Set_allocated. }
    rewrite Hrun in Hrun'. injection Hrun' as _ <-.
    exists s. split; [|done]. apply Hsame; [done|congruence].
Qed.

(** X1: the reads of a registry agree with each other: [Keys] and [Values] are
    the two sides of [All], no key is yielded twice, [Len] is the number of
    pairs, [Get] finds exactly the pairs that [All] yields and reports
    not-found for every other key; none of them changes the store. *)
Theorem reads_agree {Sorter} (sorter : Sorter) l h :
  registry l h →
  ∃ all,
    Includes_All (Some l) h = Ret all h ∧
    Includes_Keys (Some l) sorter h = Ret (fst <$> all) h ∧
    Includes_Values (Some l) sorter h = Ret (snd <$> all) h ∧
    Includes_Len (Some l) h = Ret (Z.of_nat (length all)) h ∧
    NoDup (fst <$> all) ∧
    (∀ k v, (k, v) ∈ all ↔ Includes_Get (Some l) k h = Ret (v, true) h) ∧
    (∀ k, k ∉ fst <$> all → ∃ r, Includes_Get (Some l) k h = Ret (r, false) h).
Proof.
  intros (s & Hl & Hwf). exists (OrderedMap_Iterator (view s)).
  pose proof (Iterator_keys (view s) Hwf) as Hkeys.
  split_and!.
  - by apply Includes_All_at.
  - by apply Includes_Keys_at.
  - by apply Includes_Values_at.
  - rewrite (Includes_Len_at l h s Hl), OrderedMap_Len_length by done.
    by rewrite <- Hkeys, length_fmap.
  - rewrite Hkeys. apply Hwf.
  - intros k v. by rewrite elem_of_Iterator, (Includes_Get_found l h s).
  - intros k. rewrite Hkeys. intros Hk.
    assert (orderedmap.kv (view s) !! k = None) as Hnone.
    { destruct Hwf as [_ Hdom]. apply eq_None_not_Some. by rewrite <- Hdom. }
    unfold view in Hnone. destruct (om s) as [m|] eqn:Hm.
    + exists None. rewrite (Includes_Get_at l h s m k Hl Hm).
      unfold OrderedMap_Get. by rewrite Hnone.
    + exists (Some zeroInclude). by apply (Includes_Get_nil_om l h s).
Qed.

(** X2: one [Set] on a registry: it returns true exactly when [Get] did not find
    the key, [Len] grows by one then and stays otherwise, [Get] finds the
    new value under the key, and what it finds under every other key is
    what it found before. *)
Theorem Set_then_reads l h key value (n : Z) :
  registry l h →
  Includes_Len (Some l) h = Ret n h →
  ∃ isNew h',
    Includes_Set (Some l) key value h = Ret isNew h' ∧
    (isNew = true ↔ ∀ v, Includes_Get (Some l) key h ≠ Ret (v, true) h) ∧
    Includes_Get (Some l) key h' = Ret (value, true) h' ∧
    Includes_Len (Some l) h' = Ret (if isNew then n + 1 else n)%Z h' ∧
    (∀ k v, k ≠ key →
       Includes_Get (Some l) k h' = Ret (v, true) h' ↔
       Includes_Get (Some l) k h = Ret (v, true) h).
Proof.
  intros (s & Hl & Hwf) Hlen.
  rewrite (Includes_Len_at l h s Hl), OrderedMap_Len_length in Hlen by done.
  injection Hlen as <-.
  rewrite (Includes_Set_at l h s key value Hl).
  pose proof (wf_Set (view s) key value Hwf) as Hwf'.
  rewrite (OrderedMap_Set_spec (view s) key value Hwf) in Hwf' |- *.
  set (m' := orderedmap.mk _ _) in *. simpl in Hwf'.
  set (s' := mkIncludes (Some m')).
  assert (<[l:=s']> h !! l = Some s') as Hl'
    by (apply list_lookup_insert_eq; by eapply lookup_lt_Some).
  eexists _, _. split; [done|]. cbn [fst snd]. fold s'. split_and!.
  - rewrite bool_decide_eq_true. destruct Hwf as [_ Hdom]. rewrite Hdom. split.
    + intros Hnone v Hget. apply (Includes_Get_found l h s key v Hl) in Hget. eauto.
    + intros Hnone [v Hv]. apply (Hnone v). by apply (Includes_Get_found l h s key v Hl).
  - apply (Includes_Get_found l _ s' key value Hl'). apply lookup_insert_eq.
  - rewrite (Includes_Len_at l _ s' Hl'), OrderedMap_Len_length by done.
    unfold s', m', view. cbn [om orderedmap.ll]. f_equal.
    case_bool_decide; case_decide; try done; rewrite ?length_app; simpl; lia.
  - intros k v Hne.
    rewrite (Includes_Get_found l _ s' k v Hl'), (Includes_Get_found l h s k v Hl).
    unfold s', m', view at 1. cbn [om orderedmap.kv]. by rewrite lookup_insert_ne.
Qed.

End reads.

(** ** More on the decoders *)

Section decoders.

Context {VarsT : Type} `{!Decoder VarsT}.
Implicit Types (l : nat) (h : heap VarsT) (s : Includes VarsT) (node : Node).
Implicit Types (includes : ptr) (include r : Include VarsT).
Implicit Types (key k : string) (calls : list (string * option (Include VarsT))).
Implicit Types (content pre post : list Node) (ps : list (Node * Node)).

Lemma decodes_to_nil : decodes_to (VarsT := VarsT) [] [].
Proof. split; [done|constructor]. Qed.

Lemma decodes_to_cons keyNode valueNode content calls v :
  decodeValue valueNode = inr v → decodes_to content calls →
  decodes_to (keyNode :: valueNode :: content)
    ((yaml.Value keyNode, Some (setNamespace v (yaml.Value keyNode))) :: calls).
Proof.
  intros Hv [Hflat Hall]. split; simpl; [by rewrite Hflat|].
  constructor; [|done]. by exists v.
Qed.

(** A list of nodes read two at a time: every value decodes, or a first one
    does not, or the last key has no value. *)
Lemma content_cases content :
  (∃ calls, decodes_to content calls) ∨
  (∃ pre calls keyNode valueNode post cause,
     content = pre ++ keyNode :: valueNode :: post ∧ decodes_to pre calls ∧
     decodeValue valueNode = inl cause) ∨
  (∃ pre calls keyNode, content = pre ++ [keyNode] ∧ decodes_to pre calls).
Proof.
  induction content as [|kn|kn vn content IH] using list_pair_ind.
  - left. exists []. apply decodes_to_nil.
  - right. right. exists [], [], kn. split; [done|apply decodes_to_nil].
  - destruct (decodeValue vn) as [cause|v] eqn:Hv.
    { right. left. exists [], [], kn, vn, content, cause.
      split_and!; [done|apply decodes_to_nil|done]. }
    destruct IH as [(calls & Hd)|[(pre & calls & k' & v' & post & cause & -> & Hd & Hc)
                                 |(pre & calls & k' & -> & Hd)]].
    + left. eexists. by apply decodes_to_cons.
    + right. left. eexists (kn :: vn :: pre), _, k', v', post, cause.
      split_and!; [done|by apply decodes_to_cons|done].
    + right. right. eexists (kn :: vn :: pre), _, k'.
      split; [done|by apply decodes_to_cons].
Qed.

(** X5: the registry's decoder on a mapping ends in one of three ways.
    Every value decodes: it returns nil, in the store the [Set] calls of all
    entries leave. A first value does not decode: it returns the decode error
    that wraps the cause and points at the mapping, in the store the [Set]
    calls of the entries before it leave. The values before it decode and
    the last key has no value: it panics, on [node.Content[i+1]]; of the
    store after the panic nothing is said. *)
Theorem decode_outcomes l h node :
  registry l h → yaml.Kind node = yaml.MappingNode →
  (∃ calls bs h', decodes_to (yaml.Content node) calls ∧
     setCalls (Some l) calls h = Ret bs h' ∧
     Includes_UnmarshalYAML (Some l) node h = Ret None h') ∨
  (∃ pre calls keyNode valueNode post cause bs h',
     yaml.Content node = pre ++ keyNode :: valueNode :: post ∧ decodes_to pre calls ∧
     decodeValue valueNode = inl cause ∧
     setCalls (Some l) calls h = Ret bs h' ∧
     Includes_UnmarshalYAML (Some l) node h =
       Ret (Some (DecodeError (Some cause) node)) h') ∨
  (∃ pre calls keyNode,
     yaml.Content node = pre ++ [keyNode] ∧ decodes_to pre calls ∧
     Includes_UnmarshalYAML (Some l) node h = Panic).
Proof.
  intros (s & Hl & Hwf) Hk. unfold Includes_UnmarshalYAML. rewrite Hk.
  destruct (content_cases (yaml.Content node))
    as [(calls & Hd)|[(pre & calls & kn & vn & post & cause & Hc & Hd & Hv)
                     |(pre & calls & kn & Hc & Hd)]];
    destruct (setCalls_registry l h s calls Hl Hwf) as (h' & s' & Hrun & _).
  - left. exists calls, (mapSets (view s) calls).2, h'. split_and!; [done|done|].
    by rewrite (decodeContent_all (Some l) node _ calls h Hd), Hrun.
  - right. left. exists pre, calls, kn, vn, post, cause, (mapSets (view s) calls).2, h'.
    split_and!; [done..|].
    rewrite Hc, (decodeContent_prefix (Some l) node pre calls _ h Hd), Hrun.
    simpl. by rewrite Hv.
  - right. right. exists pre, calls, kn. split_and!; [done..|].
    by rewrite Hc, (decodeContent_prefix (Some l) node pre calls _ h Hd), Hrun.
Qed.

Lemma decodeContent_keeps_registry includes node l content h e h' :
  registry l h → decodeContent includes node content h = Ret e h' → registry l h'.
Proof.
  revert h. induction content as [|kn|kn vn content IH] using list_pair_ind; intros h Hreg.
  - by intros [= _ <-].
  - done.
  - simpl. destruct (decodeValue vn) as [cause|v]; [by intros [= _ <-]|].
    unfold mbind, M_bind.
    destruct (Includes_Set includes _ _ h) as [b h1|] eqn:Hset; [|done].
    apply IH. by eapply Includes_Set_keeps_registry.
Qed.

(** X4: every struct that is a registry before [Set] or the registry's
    decoder runs is one after it, on whatever receiver the call is made and
    whether the decoder returns nil or an error: its keys are still listed
    once each, so its reads still agree. *)
Theorem writes_keep_registries includes l h :
  registry l h →
  (∀ key value isNew h', Includes_Set includes key value h = Ret isNew h' → registry l h') ∧
  (∀ node e h', Includes_UnmarshalYAML includes node h = Ret e h' → registry l h').
Proof.
  intros Hreg. split.
  - intros key value isNew h'. by apply Includes_Set_keeps_registry.
  - intros node e h'. unfold Includes_UnmarshalYAML.
    destruct (yaml.Kind node); try (by intros [= _ <-]).
    by apply decodeContent_keeps_registry.
Qed.

(** X10: decoding into a record that has been decoded into before. The mapping
    form takes nothing from the receiver but [Namespace]: what it gives for
    one receiver it gives for any other, up to [Namespace]. The scalar form
    takes everything but [Taskfile]: after a mapping and then a scalar,
    [AdvancedImport] is still true and the other fields are those of the
    mapping. *)
Theorem decode_into_a_decoded_record include include' mapping scalar r r' :
  yaml.Kind mapping = yaml.MappingNode → yaml.Kind scalar = yaml.ScalarNode →
  Include_UnmarshalYAML include mapping = inr r →
  Include_UnmarshalYAML r scalar = inr r' →
  Include_UnmarshalYAML include' mapping = inr (setNamespace r (Namespace include')) ∧
  decodeString scalar = inr (Taskfile r') ∧
  AdvancedImport r' = true ∧
  r' = mkInclude (Namespace include) (Taskfile r') (Dir r) (Optional r) (Internal r)
         (Aliases r) true (Vars r) (Flatten r).
Proof.
  intros Hm Hs. unfold Include_UnmarshalYAML. rewrite Hm, Hs.
  destruct (decodeStruct mapping) as [|f]; [done|]. intros [= <-].
  destruct (decodeString scalar) as [|str]; [done|]. intros [= <-]. done.
Qed.

End decoders.

(** ** Decoding shorthand entries, decoding twice *)

Section decode_again.

Context {VarsT : Type} `{!Decoder VarsT}.
Implicit Types (l : nat) (h : heap VarsT) (s : Includes VarsT) (node : Node).
Implicit Types (key k : string) (calls : list (string * option (Include VarsT))).
Implicit Types (content : list Node) (ps : list (Node * Node)).

Lemma pairs_flatten ps : yaml.pairs (yaml.flatten ps) = ps.
Proof. induction ps as [|[k v] ps IH]; simpl; [done|]. by rewrite IH. Qed.

Lemma decodes_to_shorthand ps :
  Forall (λ kv, yaml.Kind (snd kv) = yaml.ScalarNode ∧ yaml.Tag (snd kv) = yaml.strTag) ps →
  decodes_to (yaml.flatten ps) ((λ kv, (yaml.Value (fst kv), Some (shorthand kv))) <$> ps).
Proof.
  intros Hall. split; [by rewrite pairs_flatten|]. rewrite pairs_flatten.
  induction Hall as [|[kn vn] ps [Hk Ht] _ IH]; [constructor|].
  rewrite fmap_cons. constructor; [|done].
  eexists. split; [by apply decodeValue_str|done].
Qed.

(** X7: a mapping whose values are all strings always decodes: the call returns
    nil, [Keys] yields the keys in the order of their first occurrence after
    those the registry had, and under each key [Get] finds the record with
    that [Namespace], the text of the key's last value as [Taskfile], and
    every other field zero. *)
Theorem shorthand_mapping_decodes {Sorter} (sorter : Sorter) l h node ps keys0 :
  registry l h →
  Includes_Keys (Some l) sorter h = Ret keys0 h →
  yaml.Kind node = yaml.MappingNode →
  yaml.Content node = yaml.flatten ps →
  Forall (λ kv, yaml.Kind (snd kv) = yaml.ScalarNode ∧ yaml.Tag (snd kv) = yaml.strTag) ps →
  ∃ h',
    Includes_UnmarshalYAML (Some l) node h = Ret None h' ∧
    Includes_Keys (Some l) sorter h' = Ret (firsts (keys0 ++ yaml.keys node)) h' ∧
    (∀ p1 kn vn p2, ps = p1 ++ (kn, vn) :: p2 →
       yaml.Value kn ∉ (yaml.Value ∘ fst) <$> p2 →
       Includes_Get (Some l) (yaml.Value kn) h' =
         Ret (Some (mkInclude (yaml.Value kn) (yaml.Value vn) "" false false []
                      false None false), true) h').
Proof.
  intros Hreg Hkeys Hk Hc Hall.
  pose proof (decodes_to_shorthand ps Hall) as Hd. rewrite <- Hc in Hd.
  destruct (decoded_calls_observed sorter l h _ _ keys0 Hreg Hkeys Hd)
    as (bs & h' & Hrun & Hkeys' & _ & Hlast & _).
  exists h'. split_and!.
  - unfold Includes_UnmarshalYAML. rewrite Hk.
    by rewrite (decodeContent_all (Some l) node _ _ h Hd), Hrun.
  - rewrite Hkeys'. do 3 f_equal. apply decodes_to_keys in Hd. by rewrite Hd.
  - intros p1 kn vn p2 Heq Hlastkey.
    destruct (Hlast p1 kn vn p2) as (v & Hv & Hget); [by rewrite Hc, pairs_flatten|done|].
    apply Forall_forall with (x := (kn, vn)) in Hall;
      [|rewrite Heq; apply elem_of_app; right; left].
    destruct Hall as [Hks Hts]. rewrite (decodeValue_str vn Hks Hts) in Hv.
    injection Hv as <-. exact Hget.
Qed.

(** Keys that are all there already add nothing to the order. *)
Lemma firsts_app_known (ks ks' : list string) :
  NoDup ks → (∀ k, k ∈ ks' → k ∈ ks) → firsts (ks ++ ks') = ks.
Proof.
  intros Hnd. induction ks' as [|k ks' IH] using rev_ind; intros Hsub.
  - by rewrite app_nil_r, firsts_NoDup.
  - rewrite app_assoc, firsts_snoc, decide_True.
    + apply IH. intros k' Hk'. apply Hsub, elem_of_app. by left.
    + apply elem_of_app. left. apply Hsub, elem_of_app. right. left.
Qed.

(** The same [Set] calls once more leave the map they made. *)
Lemma mapSets_again {V} (m0 : OrderedMap V) (cs : list (string * V)) :
  orderedmap.wf m0 → (mapSets (mapSets m0 cs).1 cs).1 = (mapSets m0 cs).1.
Proof.
  intros Hwf0.
  destruct (mapSets_post m0 cs Hwf0) as (Hwf1 & Hll1 & Hlast1 & _).
  destruct (mapSets_post (mapSets m0 cs).1 cs Hwf1) as (_ & Hll2 & Hlast2 & Hkeep2 & _).
  destruct (mapSets m0 cs).1 as [kv1 ll1], (mapSets _ cs).1 as [kv2 ll2]. simpl in *.
  f_equal.
  - apply map_eq. intros k. destruct (decide (k ∈ fst <$> cs)) as [Hin|Hin].
    + destruct (last_occurrence k cs Hin) as (c1 & v & c2 & Hc & Hc2).
      by rewrite (Hlast1 c1 k v c2), (Hlast2 c1 k v c2).
    + by apply Hkeep2.
  - rewrite Hll2. apply firsts_app_known; [apply Hwf1|].
    intros k Hk. rewrite Hll1, elem_of_firsts, elem_of_app. by right.
Qed.

(** X6: decoding is idempotent: when the registry's decoder has returned nil,
    running it again on the same mapping returns nil and leaves the store as
    it is. *)
Theorem decode_twice l h node h' :
  registry l h →
  Includes_UnmarshalYAML (Some l) node h = Ret None h' →
  Includes_UnmarshalYAML (Some l) node h' = Ret None h'.
Proof.
  intros (s & Hl & Hwf). unfold Includes_UnmarshalYAML.
  destruct (yaml.Kind node) eqn:Hk; try done.
  destruct (content_cases (yaml.Content node))
    as [(calls & Hd)|[(pre & calls & kn & vn & post & cause & Hc & Hd & Hv)
                     |(pre & calls & kn & Hc & Hd)]].
  - rewrite !(decodeContent_all (Some l) node _ calls _ Hd).
    destruct (setCalls_store l h s calls Hl) as (h1 & s1 & Hrun & Hl1 & Hview & Hom & Hnil & _).
    rewrite Hrun. intros [= <-].
    destruct (setCalls_store l h1 s1 calls Hl1) as (h2 & s2 & Hrun2 & _).
    rewrite (setCalls_at l h1 s1 calls Hl1). rewrite Hview, (mapSets_again _ _ Hwf).
    destruct calls as [|c calls]; [done|]. f_equal.
    apply list_insert_id. rewrite Hl1. f_equal.
    destruct s1 as [o]. simpl in *. by rewrite Hom.
  - rewrite Hc, (decodeContent_prefix (Some l) node pre calls _ h Hd).
    destruct (setCalls (Some l) calls h); [|done]. simpl. by rewrite Hv.
  - rewrite Hc, (decodeContent_prefix (Some l) node pre calls _ h Hd).
    by destruct (setCalls (Some l) calls h).
Qed.

(** [Set] calls on the nil pointer: each adds a struct to the store, and the
    structs that were there stay. *)
Lemma setCalls_nil calls h :
  ∃ bs h', setCalls None calls h = Ret bs h' ∧
    length h' = length h + length calls ∧
    (∀ l s, h !! l = Some s → h' !! l = Some s).
Proof.
  revert h. induction calls as [|[k v] calls IH]; intros h.
  - exists [], h. split_and!; [done|simpl; lia|done].
  - destruct (Includes_Set_frame None h k v) as (b & h1 & Hset & Hsame & Hlen); [done|].
    destruct (IH h1) as (bs & h' & Hrun & Hlen' & Hsame').
    exists (b :: bs), h'. split_and!.
    + simpl. unfold mbind, M_bind. by rewrite Hset, Hrun.
    + rewrite Hlen', Hlen. simpl. lia.
    + intros l s Hl. apply Hsame', Hsame; done.
Qed.

(** X8: the registry's decoder on the nil pointer: a mapping whose values all
    decode is decoded without error, but every entry goes to a struct of its
    own: the store grows by one struct for each entry, the structs that were
    there stay as they are, and the nil registry still reads as empty. *)
Theorem decode_on_nil_pointer_is_lost h node calls :
  yaml.Kind node = yaml.MappingNode →
  decodes_to (yaml.Content node) calls →
  ∃ h',
    Includes_UnmarshalYAML None node h = Ret None h' ∧
    length h' = length h + length (yaml.keys node) ∧
    (∀ l s, h !! l = Some s → h' !! l = Some s) ∧
    Includes_Len None h' = Ret 0%Z h' ∧
    Includes_All None h' = Ret [] h' ∧
    (∀ k, Includes_Get None k h' = Ret (Some zeroInclude, false) h').
Proof.
  intros Hk Hd. destruct (setCalls_nil calls h) as (bs & h' & Hrun & Hlen & Hsame).
  exists h'. split_and!; try done.
  - unfold Includes_UnmarshalYAML. rewrite Hk.
    by rewrite (decodeContent_all None node _ calls h Hd), Hrun.
  - rewrite Hlen. f_equal. unfold yaml.keys.
    by rewrite <- (decodes_to_keys _ _ Hd), !length_fmap.
Qed.

End decode_again.

(** ** Copies, and registries made from elements *)

Section copies.

Context {VarsT : Type}.
Implicit Types (l : nat) (h : heap VarsT) (include : Include VarsT).
Implicit Types (es : list (IncludeElement VarsT)).


(** The calls [NewIncludes] makes for its elements. *)
Lemma setElements_calls (includes : ptr) es rest h :
  setElements includes ((Some <$> es) ++ rest) h =
    match setCalls includes ((λ el, (Key el, Value el)) <$> es) h with
    | Ret _ h' => setElements includes rest h'
    | Panic => Panic
    end.
Proof.
  revert h. induction es as [|el es IH]; intros h; [done|].
  simpl. unfold mbind, M_bind.
  destruct (Includes_Set includes (Key el) (Value el) h) as [b h1|]; [|done].
  rewrite IH. by destruct (setCalls includes _ h1).
Qed.

(** X12: [NewIncludes] on elements that are all there returns the address of a
    new registry and leaves the structs of the store as they are; the new
    registry yields the keys of the elements in the order of their first
    occurrence, and under each key [Get] finds the value of the last
    element with that key. *)
Theorem NewIncludes_registers_elements {Sorter} (sorter : Sorter) h es :
  ∃ h',
    NewIncludes (Some <$> es) h = Ret (Some (length h)) h' ∧
    registry (length h) h' ∧
    length h' = S (length h) ∧
    (∀ l s, h !! l = Some s → h' !! l = Some s) ∧
    Includes_Keys (Some (length h)) sorter h' = Ret (firsts (Key <$> es)) h' ∧
    Includes_Len (Some (length h)) h' = Ret (Z.of_nat (length (firsts (Key <$> es)))) h' ∧
    (∀ e1 el e2, es = e1 ++ el :: e2 → Key el ∉ Key <$> e2 →
       Includes_Get (Some (length h)) (Key el) h' = Ret (Value el, true) h').
Proof.
  set (l := length h). set (h0 := h ++ [mkIncludes (Some NewOrderedMap)]).
  set (calls := (λ el, (Key el, Value el)) <$> es).
  assert (h0 !! l = Some (mkIncludes (Some NewOrderedMap))) as Hl0
    by (by apply list_lookup_middle).
  destruct (setCalls_store l h0 _ calls Hl0)
    as (h' & s' & Hrun & Hl' & Hview & _ & _ & Hlen & Hother).
  destruct (mapSets_post (@NewOrderedMap (option (Include VarsT))) calls wf_NewOrderedMap)
    as (Hwf & Hll & Hlast & _).
  change (view (mkIncludes (Some NewOrderedMap))) with
    (@NewOrderedMap (option (Include VarsT))) in Hview, Hrun.
  rewrite <- Hview in Hwf, Hll, Hlast.
  assert (fst <$> calls = Key <$> es) as Hkeys.
  { unfold calls. rewrite <- list_fmap_compose. done. }
  simpl in Hll. rewrite Hkeys in Hll.
  exists h'. split_and!.
  - unfold NewIncludes, mbind, M_bind, alloc. fold l h0.
    rewrite <- (app_nil_r (Some <$> es)), (setElements_calls (Some l) es [] h0).
    fold calls. by rewrite Hrun.
  - by exists s'.
  - rewrite Hlen. unfold h0. rewrite length_app. simpl. lia.
  - intros l1 s Hl1. pose proof (lookup_lt_Some _ _ _ Hl1).
    rewrite Hother by (unfold l; lia). unfold h0. by rewrite lookup_app_l.
  - by rewrite (registry_Keys sorter l h' s' Hl' Hwf), Hll.
  - by rewrite (Includes_Len_at l h' s' Hl'), OrderedMap_Len_length, Hll.
  - intros e1 el e2 -> Hk. apply (Includes_Get_found l h' s' _ _ Hl').
    apply (Hlast ((λ el, (Key el, Value el)) <$> e1) (Key el) (Value el)
             ((λ el, (Key el, Value el)) <$> e2)).
    + unfold calls. by rewrite fmap_app, fmap_cons.
    + by rewrite <- list_fmap_compose.
Qed.

(** X13: [NewIncludes] panics on a nil element, after the calls for the elements
    before it. *)
Theorem NewIncludes_nil_element h es rest :
  NewIncludes ((Some <$> es) ++ None :: rest) h = Panic.
Proof.
  unfold NewIncludes, mbind, M_bind, alloc.
  rewrite setElements_calls. by destruct (setCalls _ _ _).
Qed.

End copies.

(** ** The program on concrete inputs *)

Section examples.

Import reference examples.

Notation "'decode'" := (Include_UnmarshalYAML (VarsT := VarsT)) (only parsing).

Lemma registry_fresh : registry 0 fresh.
Proof. exists (mkIncludes None). split; [reflexivity|apply wf_NewOrderedMap]. Qed.

(** C1 on the record of the include [s], declared with the alias ["s"]: the
    copy has every other field, and no alias. *)
Theorem DeepCopy_drops_Aliases :
  ∃ c, Include_DeepCopy DeepCopy (Some aliased) = Some c ∧
    Aliases aliased = ["s"] ∧ Aliases c = [] ∧ Aliases c ≠ Aliases aliased ∧
    Namespace c = "s" ∧ Taskfile c = "./sub/Taskfile.yml" ∧ Dir c = "./sub" ∧
    Optional c = true ∧ Internal c = false ∧ AdvancedImport c = true ∧
    Vars c = None ∧ Flatten c = false.
Proof. eexists. split; [reflexivity|]. simpl. split_and!; done. Qed.

(** C2 fails on the empty string and on a mapping without a taskfile: both
    decode, and [Taskfile] is empty. *)
Lemma Taskfile_can_be_empty :
  (∃ r, decode zeroInclude (yaml.str "") = inr r ∧ Taskfile r = "") ∧
  (∃ r, decode zeroInclude no_taskfile = inr r ∧ Taskfile r = "").
Proof. split; eexists; (split; [vm_compute; reflexivity|reflexivity]). Qed.

Lemma decoded_Taskfile_witness :
  decode zeroInclude (yaml.str "./a.yml") = inr (taskfile "" "./a.yml") ∧
  decodeString (yaml.str "./a.yml") = inr "./a.yml".
Proof.
  assert (decode zeroInclude (yaml.str "./a.yml") = inr (taskfile "" "./a.yml")) as Hd
    by reflexivity.
  split; [exact Hd|].
  destruct (decoded_Taskfile_is_what_the_node_holds _ _ _ Hd) as [(_ & Hs & _)|(Hk & _)].
  - exact Hs.
  - discriminate Hk.
Defined.

Lemma scalar_form_witness :
  (yaml.Kind (yaml.str "./sub/Taskfile.yml") = yaml.ScalarNode ∧
   yaml.Tag (yaml.str "./sub/Taskfile.yml") = yaml.strTag ∧
   yaml.Value (yaml.str "./sub/Taskfile.yml") = "./sub/Taskfile.yml") ∧
  decode zeroInclude (yaml.str "./sub/Taskfile.yml") = inr (taskfile "" "./sub/Taskfile.yml").
Proof.
  split; [split_and!; reflexivity|].
  apply (scalar_form_sets_Taskfile zeroInclude (yaml.str "./sub/Taskfile.yml")
           "./sub/Taskfile.yml"); reflexivity.
Defined.

Lemma mapping_form_witness :
  (yaml.Kind sub = yaml.MappingNode ∧ decode zeroInclude sub = inr sub_record) ∧
  AdvancedImport sub_record = true ∧ decodeStruct sub = inr (fieldsOf sub_record).
Proof.
  assert (decode zeroInclude sub = inr sub_record) as Hd by (vm_compute; reflexivity).
  split; [split; [reflexivity|exact Hd]|].
  destruct (mapping_form_copies_fields zeroInclude sub sub_record eq_refl Hd)
    as (Ha & _ & Hf & _).
  split; [exact Ha|exact Hf].
Defined.

Lemma decodes_to_two : decodes_to (yaml.Content two) two_calls.
Proof.
  split; [reflexivity|]. repeat constructor; eexists; (split; [vm_compute|]; reflexivity).
Qed.

(** C6 fails on a mapping that repeats a key: every entry decodes and the
    call succeeds, and [Keys] yields the key once where the source has it
    twice. *)
Lemma repeated_key_is_yielded_once :
  Forall (λ kv, ∃ v, decodeValue (VarsT := VarsT) (snd kv) = inr v)
    (yaml.pairs (yaml.Content repeated)) ∧
  yaml.keys repeated = ["a"; "a"] ∧
  ∃ h', Includes_UnmarshalYAML (Some 0) repeated fresh = Ret None h' ∧
    Includes_Keys (Some 0) () h' = Ret ["a"] h' ∧
    Includes_Keys (Some 0) () h' ≠ Ret (yaml.keys repeated) h'.
Proof.
  split; [repeat constructor; eexists; vm_compute; reflexivity|].
  split; [reflexivity|].
  eexists. split; [vm_compute; reflexivity|].
  split; [vm_compute; reflexivity|]. vm_compute. discriminate.
Qed.

Lemma decode_order_witness :
  (registry 0 fresh ∧ Includes_Keys (Some 0) () fresh = Ret [] fresh ∧
   yaml.Kind two = yaml.MappingNode ∧ decodes_to (yaml.Content two) two_calls) ∧
  ∃ h', Includes_UnmarshalYAML (Some 0) two fresh = Ret None h' ∧
    Includes_Keys (Some 0) () h' = Ret ["a"; "b"] h' ∧
    Includes_Len (Some 0) h' = Ret 2%Z h' ∧
    (∃ r, Includes_Get (Some 0) "a" h' = Ret (Some r, true) h' ∧ Namespace r = "a") ∧
    (∃ r, Includes_Get (Some 0) "b" h' = Ret (Some r, true) h' ∧ Namespace r = "b").
Proof.
  split; [split_and!; [apply registry_fresh|reflexivity|reflexivity|apply decodes_to_two]|].
  destruct (decode_keeps_first_occurrence_order () 0 fresh two two_calls []
              registry_fresh eq_refl eq_refl decodes_to_two)
    as (bs & h' & Hrun & _ & _ & Hkeys & _ & Hlen & _ & Hns).
  exists h'. split_and!; [exact Hrun|exact Hkeys|exact Hlen| |].
  - apply Hns. left.
  - apply Hns. right. left.
Defined.

Lemma Set_order_witness :
  (registry 0 fresh ∧ Includes_Keys (Some 0) () fresh = Ret [] fresh) ∧
  ∃ bs h', setCalls (Some 0) three_sets fresh = Ret bs h' ∧
    Includes_Keys (Some 0) () h' = Ret ["a"; "b"] h' ∧
    Includes_Get (Some 0) "a" h' = Ret (Some (taskfile "a" "3"), true) h' ∧
    bs !! 2 = Some false.
Proof.
  split; [split; [apply registry_fresh|reflexivity]|].
  destruct (Set_keeps_first_insertion_order () 0 fresh three_sets [] registry_fresh eq_refl)
    as (bs & h' & all & Hrun & _ & Hkeys & _ & Hfst & _ & _ & Hlast & _ & _ & Hflag).
  exists bs, h'. split_and!.
  - exact Hrun.
  - rewrite Hkeys, Hfst. reflexivity.
  - apply (Hlast [("a", Some (taskfile "a" "1")); ("b", Some (taskfile "b" "2"))] "a"
             (Some (taskfile "a" "3")) []); [reflexivity|apply not_elem_of_nil].
  - apply (Hflag [("a", Some (taskfile "a" "1")); ("b", Some (taskfile "b" "2"))] "a"
             (Some (taskfile "a" "3")) []). reflexivity.
Defined.

(** C8 fails on [Get]: both registries report not-found, the uninitialized
    one with a zero-value record and the empty initialized one with nil. *)
Lemma Get_differs_on_the_empty_registry :
  uninitialized (Some 0) both ∧ empty_initialized (Some 1) both ∧
  Includes_Get (Some 0) "a" both = Ret (Some zeroInclude, false) both ∧
  Includes_Get (Some 1) "a" both = Ret (None, false) both ∧
  Includes_Get None "a" both = Ret (Some zeroInclude, false) both ∧
  Includes_Get (Some 0) "a" both ≠ Includes_Get (Some 1) "a" both.
Proof.
  split_and!; try reflexivity.
  - right. by exists 0.
  - by exists 1.
  - vm_compute. discriminate.
Qed.

Lemma uninitialized_reads_witness :
  (uninitialized (VarsT := VarsT) None [] ∧ uninitialized (Some 0) fresh ∧
   empty_initialized (Some 1) both) ∧
  (Includes_Len (VarsT := VarsT) None [] = Ret 0%Z [] ∧
   Includes_Get (VarsT := VarsT) None "a" [] = Ret (Some zeroInclude, false) []) ∧
  (Includes_Len (Some 0) fresh = Ret 0%Z fresh ∧
   Includes_All (Some 0) fresh = Ret [] fresh ∧
   Includes_Get (Some 0) "a" fresh = Ret (Some zeroInclude, false) fresh) ∧
  (Includes_Len (Some 1) both = Ret 0%Z both ∧
   Includes_All (Some 1) both = Ret [] both ∧
   Includes_Get (Some 1) "a" both = Ret (None, false) both).
Proof.
  assert (uninitialized (VarsT := VarsT) None []) as Hn by (by left).
  assert (uninitialized (Some 0) fresh) as Hu by (right; by exists 0).
  assert (empty_initialized (Some 1) both) as He by (by exists 1).
  split; [by split_and!|].
  destruct (proj1 (reads_of_uninitialized_registry () None None [] [] "a") Hn)
    as (Hlen0 & _ & _ & _ & Hget0).
  destruct (proj1 (reads_of_uninitialized_registry () (Some 0) None fresh [] "a") Hu)
    as (Hlen1 & Hall1 & _ & _ & Hget1).
  destruct (proj2 (reads_of_uninitialized_registry () None (Some 1) [] both "a") He)
    as (Hlen2 & Hall2 & _ & _ & Hget2).
  split_and!; [exact Hlen0|exact Hget0|exact Hlen1|exact Hall1|exact Hget1
              |exact Hlen2|exact Hall2|exact Hget2].
Defined.

Lemma failed_decode_witness :
  (registry 0 fresh ∧ Includes_Keys (Some 0) () fresh = Ret [] fresh ∧
   yaml.Kind broken = yaml.MappingNode ∧
   decodeValue (VarsT := VarsT) (yaml.seq []) = inl (TypeMismatch "include" (yaml.seq []))) ∧
  ∃ h', Includes_UnmarshalYAML (Some 0) broken fresh =
          Ret (Some (DecodeError (Some (TypeMismatch "include" (yaml.seq []))) broken)) h' ∧
    Includes_Keys (Some 0) () h' = Ret ["a"] h' ∧
    Includes_Len (Some 0) h' = Ret 1%Z h' ∧
    ∃ r, Includes_Get (Some 0) "a" h' = Ret (Some r, true) h' ∧ Namespace r = "a".
Proof.
  split; [split_and!; [apply registry_fresh|reflexivity..]|].
  assert (decodes_to (VarsT := VarsT) [yaml.str "a"; yaml.str "./a.yml"]
            [("a", Some (taskfile "a" "./a.yml"))]) as Hd.
  { split; [reflexivity|]. repeat constructor. eexists. split; reflexivity. }
  destruct (failed_decode_keeps_earlier_entries () 0 fresh broken
              [yaml.str "a"; yaml.str "./a.yml"] [("a", Some (taskfile "a" "./a.yml"))]
              (yaml.str "b") (yaml.seq []) [yaml.str "c"; yaml.str "./c.yml"]
              (TypeMismatch "include" (yaml.seq [])) []
              registry_fresh eq_refl eq_refl eq_refl Hd eq_refl)
    as (bs & h' & Hrun & _ & _ & Hkeys & Hlen & Hget).
  exists h'. split_and!; [exact Hrun|exact Hkeys|exact Hlen|].
  apply Hget. left.
Defined.

Lemma registry_populated : registry 0 populated.
Proof.
  destruct (setCalls_registry 0 fresh (mkIncludes None) three_sets eq_refl wf_NewOrderedMap)
    as (h' & s' & Hrun & Hl' & Hwf' & _).
  unfold populated. rewrite Hrun. by exists s'.
Qed.

Lemma reads_agree_witness :
  registry 0 populated ∧
  ∃ all, Includes_All (Some 0) populated = Ret all populated ∧
    all = [("a", Some (taskfile "a" "3")); ("b", Some (taskfile "b" "2"))] ∧
    Includes_Keys (Some 0) () populated = Ret (fst <$> all) populated ∧
    Includes_Values (Some 0) () populated = Ret (snd <$> all) populated ∧
    Includes_Len (Some 0) populated = Ret (Z.of_nat (length all)) populated ∧
    NoDup (fst <$> all) ∧
    Includes_Get (Some 0) "b" populated = Ret (Some (taskfile "b" "2"), true) populated ∧
    ∃ r, Includes_Get (Some 0) "c" populated = Ret (r, false) populated.
Proof.
  split; [exact registry_populated|].
  destruct (reads_agree () 0 populated registry_populated)
    as (all & Hall & Hkeys & Hvalues & Hlen & Hnd & Hfound & Hmissing).
  assert (all = [("a", Some (taskfile "a" "3")); ("b", Some (taskfile "b" "2"))]) as Heq.
  { assert (Includes_All (Some 0) populated =
              Ret [("a", Some (taskfile "a" "3")); ("b", Some (taskfile "b" "2"))] populated)
      as Hc by (vm_compute; reflexivity).
    rewrite Hc in Hall. by injection Hall. }
  exists all. split_and!; [exact Hall|exact Heq|exact Hkeys|exact Hvalues|exact Hlen
                         |exact Hnd| |].
  - apply Hfound. rewrite Heq. right. left.
  - apply Hmissing. rewrite Heq. vm_compute.
    intros Hin. repeat (apply elem_of_cons in Hin as [Hin|Hin]; [discriminate Hin|]).
    by apply elem_of_nil in Hin.
Defined.

Lemma Set_then_reads_witness :
  (registry 0 fresh ∧ Includes_Len (Some 0) fresh = Ret 0%Z fresh) ∧
  ∃ isNew h', Includes_Set (Some 0) "a" (Some (taskfile "a" "1")) fresh = Ret isNew h' ∧
    Includes_Get (Some 0) "a" h' = Ret (Some (taskfile "a" "1"), true) h' ∧
    Includes_Len (Some 0) h' = Ret (if isNew then 0 + 1 else 0)%Z h'.
Proof.
  split; [split; [apply registry_fresh|reflexivity]|].
  destruct (Set_then_reads 0 fresh "a" (Some (taskfile "a" "1")) 0%Z registry_fresh eq_refl)
    as (isNew & h' & Hrun & _ & Hget & Hlen & _).
  exists isNew, h'. split_and!; [exact Hrun|exact Hget|exact Hlen].
Defined.

Lemma decode_outcomes_witness :
  (registry 0 fresh ∧ yaml.Kind broken = yaml.MappingNode) ∧
  ((∃ h', Includes_UnmarshalYAML (Some 0) broken fresh = Ret None h') ∨
   (∃ cause h', Includes_UnmarshalYAML (Some 0) broken fresh =
                  Ret (Some (DecodeError (Some cause) broken)) h') ∨
   Includes_UnmarshalYAML (Some 0) broken fresh = Panic).
Proof.
  split; [split; [apply registry_fresh|reflexivity]|].
  destruct (decode_outcomes 0 fresh broken registry_fresh eq_refl)
    as [(calls & bs & h' & _ & _ & Hrun)
       |[(pre & calls & kn & vn & post & cause & bs & h' & _ & _ & _ & _ & Hrun)
        |(pre & calls & kn & _ & _ & Hrun)]].
  - left. exists h'. exact Hrun.
  - right. left. exists cause, h'. exact Hrun.
  - right. right. exact Hrun.
Defined.

Lemma writes_keep_registries_witness :
  registry 0 fresh ∧
  ∃ e h', Includes_UnmarshalYAML (Some 0) broken fresh = Ret e h' ∧ registry 0 h'.
Proof.
  split; [apply registry_fresh|].
  destruct (Includes_UnmarshalYAML (Some 0) broken fresh) as [e h'|] eqn:Hrun.
  - exists e, h'. split; [reflexivity|].
    exact (proj2 (writes_keep_registries (Some 0) 0 fresh registry_fresh) broken e h' Hrun).
  - vm_compute in Hrun. discriminate Hrun.
Defined.

Lemma decode_into_a_decoded_record_witness :
  (yaml.Kind sub = yaml.MappingNode ∧ yaml.Kind (yaml.str "./other.yml") = yaml.ScalarNode ∧
   decode zeroInclude sub = inr sub_record ∧
   decode sub_record (yaml.str "./other.yml") =
     inr (mkInclude "" "./other.yml" "./sub" true false ["s"] true None false)) ∧
  decode (taskfile "ns" "./x.yml") sub = inr (setNamespace sub_record "ns").
Proof.
  assert (decode zeroInclude sub = inr sub_record) as Hm by (vm_compute; reflexivity).
  assert (decode sub_record (yaml.str "./other.yml") =
            inr (mkInclude "" "./other.yml" "./sub" true false ["s"] true None false)) as Hs
    by (vm_compute; reflexivity).
  split; [split_and!; [reflexivity|reflexivity|exact Hm|exact Hs]|].
  exact (proj1 (decode_into_a_decoded_record zeroInclude (taskfile "ns" "./x.yml") sub
                  (yaml.str "./other.yml") _ _ eq_refl eq_refl Hm Hs)).
Defined.

Lemma shorthands_are_strings :
  Forall (λ kv : Node * Node,
            yaml.Kind (snd kv) = yaml.ScalarNode ∧ yaml.Tag (snd kv) = yaml.strTag)
    shorthands.
Proof. repeat constructor. Qed.

Lemma shorthand_mapping_witness :
  (registry 0 fresh ∧ Includes_Keys (Some 0) () fresh = Ret [] fresh ∧
   yaml.Kind (yaml.map shorthands) = yaml.MappingNode ∧
   yaml.Content (yaml.map shorthands) = yaml.flatten shorthands) ∧
  ∃ h', Includes_UnmarshalYAML (Some 0) (yaml.map shorthands) fresh = Ret None h' ∧
    Includes_Keys (Some 0) () h' = Ret ["a"; "b"] h' ∧
    Includes_Get (Some 0) "a" h' = Ret (Some (taskfile "a" "./c.yml"), true) h'.
Proof.
  split; [split_and!; [apply registry_fresh|reflexivity..]|].
  destruct (shorthand_mapping_decodes () 0 fresh (yaml.map shorthands) shorthands []
              registry_fresh eq_refl eq_refl eq_refl shorthands_are_strings)
    as (h' & Hrun & Hkeys & Hget).
  exists h'. split_and!; [exact Hrun|exact Hkeys|].
  apply (Hget [(yaml.str "a", yaml.str "./a.yml"); (yaml.str "b", yaml.str "./b.yml")]
           (yaml.str "a") (yaml.str "./c.yml") []); [reflexivity|apply not_elem_of_nil].
Defined.

Lemma decode_twice_witness :
  registry 0 fresh ∧
  ∃ h', Includes_UnmarshalYAML (Some 0) two fresh = Ret None h' ∧
    Includes_UnmarshalYAML (Some 0) two h' = Ret None h'.
Proof.
  split; [apply registry_fresh|].
  destruct (Includes_UnmarshalYAML (Some 0) two fresh) as [[e|] h'|] eqn:Hrun.
  - vm_compute in Hrun. discriminate Hrun.
  - exists h'. split; [reflexivity|].
    exact (decode_twice 0 fresh two h' registry_fresh Hrun).
  - vm_compute in Hrun. discriminate Hrun.
Defined.

Lemma decode_on_nil_pointer_witness :
  (yaml.Kind two = yaml.MappingNode ∧ decodes_to (yaml.Content two) two_calls) ∧
  ∃ h', Includes_UnmarshalYAML None two fresh = Ret None h' ∧
    length h' = 3 ∧ Includes_Len None h' = Ret 0%Z h'.
Proof.
  split; [split; [reflexivity|apply decodes_to_two]|].
  destruct (decode_on_nil_pointer_is_lost fresh two two_calls eq_refl decodes_to_two)
    as (h' & Hrun & Hlen & _ & HLen & _).
  exists h'. split_and!; [exact Hrun|exact Hlen|exact HLen].
Defined.

End examples.
